(** * Spin locks on atomic words: julienschmidt/spinlock

    A shallow embedding of the lock [Mutex] of [mutex.go] (lines 1-48) and
    of the reader/writer lock [RWMutex].  What follows line 48 of
    [mutex.go] declares [Mutex] and its constants a second time and hands
    [sync/atomic] the address of a pointer; it is not Go that compiles and
    is no part of the program.

    Every method is a program over the operations of [sync/atomic] and
    [runtime.Gosched]; a program is a tree whose nodes are the atomic
    operations, so that the boundaries between two atomic operations of one
    method (where other goroutines may run) stay visible.  The lock word is
    the only shared memory: an [int32] for [Mutex], a [uint32] for
    [RWMutex], both held in [Z] with the wrap-around written out. *)

From Stdlib Require Import ZArith List String Bool Lia.
Import ListNotations.
Open Scope Z_scope.

(** ** Machine integers *)

Module Int.

Inductive kind : Type := Int32 | Uint32.

Definition is_int32 (z : Z) : Prop := - 2 ^ 31 <= z < 2 ^ 31.
Definition is_uint32 (z : Z) : Prop := 0 <= z < 2 ^ 32.

(** Conversion of a mathematical integer to the Go type, modulo [2^32]. *)
Definition int32 (z : Z) : Z := (z + 2 ^ 31) mod 2 ^ 32 - 2 ^ 31.
Definition uint32 (z : Z) : Z := z mod 2 ^ 32.

Definition wrap (w : kind) (z : Z) : Z :=
  match w with
  | Int32 => int32 z
  | Uint32 => uint32 z
  end.

(** Go's [^uint32(c)]: bitwise complement inside 32 bits. *)
Definition not_uint32 (c : Z) : Z := uint32 (Z.lnot c).

End Int.

(** ** Programs over the atomic operations *)

Inductive outcome (A : Type) : Type :=
| Returns (a : A)          (* the call returned [a] *)
| Panics (msg : string)    (* the call ended in [panic(msg)] *)
| Spins.                   (* the loop budget ran out: the call is still polling *)
Arguments Returns {A} a.
Arguments Panics {A} msg.
Arguments Spins {A}.

Inductive prog (A : Type) : Type :=
| Done (o : outcome A)
| Cas (w : Int.kind) (old new : Z) (k : bool -> prog A)
| Add (w : Int.kind) (delta : Z) (k : Z -> prog A)
| Load (w : Int.kind) (k : Z -> prog A)
| Yield (k : prog A).
Arguments Done {A} o.
Arguments Cas {A} w old new k.
Arguments Add {A} w delta k.
Arguments Load {A} w k.
Arguments Yield {A} k.

Definition ret {A} (a : A) : prog A := Done (Returns a).
Definition panic {A} (msg : string) : prog A := Done (Panics msg).
Definition spin {A} : prog A := Done Spins.

Fixpoint bind {A B} (p : prog A) (f : A -> prog B) : prog B :=
  match p with
  | Done (Returns a) => f a
  | Done (Panics msg) => Done (Panics msg)
  | Done Spins => Done Spins
  | Cas w old new k => Cas w old new (fun ok => bind (k ok) f)
  | Add w delta k => Add w delta (fun v => bind (k v) f)
  | Load w k => Load w (fun v => bind (k v) f)
  | Yield k => Yield (bind k f)
  end.

Declare Scope prog_scope.
Delimit Scope prog_scope with prog.
Notation "x <- p ;; q" := (bind p (fun x => q))
  (at level 61, p at next level, right associativity) : prog_scope.
Notation "p ;; q" := (bind p (fun _ => q))
  (at level 61, right associativity) : prog_scope.
Open Scope prog_scope.

(** [sync/atomic]: the address argument is the lock word, the only shared
    location there is. *)
Module atomic.
Definition CompareAndSwapInt32 (old new : Z) : prog bool := Cas Int.Int32 old new ret.
Definition AddInt32 (delta : Z) : prog Z := Add Int.Int32 delta ret.
Definition CompareAndSwapUint32 (old new : Z) : prog bool := Cas Int.Uint32 old new ret.
Definition AddUint32 (delta : Z) : prog Z := Add Int.Uint32 delta ret.
Definition LoadUint32 : prog Z := Load Int.Uint32 ret.
End atomic.

Module runtime.
Definition Gosched : prog unit := Yield (ret tt).
End runtime.

(** ** Semantics *)

(** What one atomic step did to the lock word. *)
Inductive event : Type :=
| EvCas (old new : Z) (ok : bool)
| EvAdd (delta result : Z)
| EvLoad (v : Z)
| EvGosched.

(** One atomic step of a goroutine when the word holds [m]: the event, the
    rest of the call and the word afterwards.  A finished call has none. *)
Definition step {A} (p : prog A) (m : Z) : option (event * prog A * Z) :=
  match p with
  | Done _ => None
  | Cas _ old new k =>
      if m =? old then Some (EvCas old new true, k true, new)
      else Some (EvCas old new false, k false, m)
  | Add w delta k =>
      let v := Int.wrap w (m + delta) in Some (EvAdd delta v, k v, v)
  | Load _ k => Some (EvLoad m, k m, m)
  | Yield k => Some (EvGosched, k, m)
  end.

(** A call running with no other goroutine touching the word. *)
Fixpoint run {A} (p : prog A) (m : Z) : outcome A * Z * list event :=
  match p with
  | Done o => (o, m, [])
  | Cas _ old new k =>
      if m =? old
      then let '(o, m', t) := run (k true) new in (o, m', EvCas old new true :: t)
      else let '(o, m', t) := run (k false) m in (o, m', EvCas old new false :: t)
  | Add w delta k =>
      let v := Int.wrap w (m + delta) in
      let '(o, m', t) := run (k v) v in (o, m', EvAdd delta v :: t)
  | Load _ k =>
      let '(o, m', t) := run (k m) m in (o, m', EvLoad m :: t)
  | Yield k =>
      let '(o, m', t) := run k m in (o, m', EvGosched :: t)
  end.

(** A call running among other goroutines: [obs] lists the value the word
    holds at each successive atomic step of this call (whatever the others
    made of it in between).  The result is the rest of the call, the word
    right after its last step (or [last] when it took none) and its events. *)
Fixpoint run_under {A} (p : prog A) (obs : list Z) (last : Z)
  : prog A * Z * list event :=
  match obs with
  | [] => (p, last, [])
  | m :: obs' =>
      match step p m with
      | None => (p, last, [])
      | Some (e, p', m') =>
          let '(q, l, t) := run_under p' obs' m' in (q, l, e :: t)
      end
  end.

Definition ok_of {A} (r : outcome A * Z * list event) : outcome A := fst (fst r).
Definition word_of {A} (r : outcome A * Z * list event) : Z := snd (fst r).
Definition trace_of {A} (r : outcome A * Z * list event) : list event := snd r.

(** ** mutex.go, lines 1-48: [type Mutex struct { state int32 }] *)

Definition mutexUnlocked : Z := 0.
Definition mutexLocked : Z := 1.

Module Mutex.

(** Lines 24-28:
    [for !atomic.CompareAndSwapInt32(&m.state, mutexUnlocked, mutexLocked)
      { runtime.Gosched() }]; [fuel] bounds the number of attempts. *)
Fixpoint Lock (fuel : nat) : prog unit :=
  match fuel with
  | O => spin
  | S fuel' =>
      ok <- atomic.CompareAndSwapInt32 mutexUnlocked mutexLocked ;;
      if negb ok then runtime.Gosched ;; Lock fuel' else ret tt
  end.

(** Lines 33-35. *)
Definition TryLock : prog bool :=
  atomic.CompareAndSwapInt32 mutexUnlocked mutexLocked.

(** Lines 43-48: [if state != mutexUnlocked { panic(...) }]. *)
Definition Unlock : prog unit :=
  state <- atomic.AddInt32 (- mutexLocked) ;;
  if negb (state =? mutexUnlocked)
  then panic "spinlock: unlock of unlocked mutex"
  else ret tt.

End Mutex.

(** ** The reader/writer lock: [type RWMutex struct { state uint32 }]

    Line numbers are those of its source file. *)

Definition rwmutexUnlocked : Z := 0.
Definition rwmutexWrite : Z := Z.shiftl 1 0.           (* bit 0: write mode *)
Definition rwmutexReadOffset : Z := Z.shiftl 1 1.      (* bits 1-31: readers *)
Definition rwmutexUnderflow : Z := Int.not_uint32 rwmutexWrite.
Definition rwmutexWriterUnset : Z := Int.not_uint32 (rwmutexWrite - 1).
Definition rwmutexReaderDecrease : Z := Int.not_uint32 (rwmutexReadOffset - 1).

(** The two components packed in the word. *)
Definition write_flag (state : Z) : bool := Z.testbit state 0.
Definition reader_count (state : Z) : Z := Z.shiftr state 1.

Module RWMutex.

(** The polling loop of [RLock]:
    [for { if state := atomic.LoadUint32(&rw.state); state&rwmutexWrite == 0
           { return }; runtime.Gosched() }] *)
Fixpoint RLock_wait (fuel : nat) : prog unit :=
  match fuel with
  | O => spin
  | S fuel' =>
      state <- atomic.LoadUint32 ;;
      if Z.land state rwmutexWrite =? 0 then ret tt
      else runtime.Gosched ;; RLock_wait fuel'
  end.

(** Lines 33-50. *)
Definition RLock (fuel : nat) : prog unit :=
  state <- atomic.AddUint32 rwmutexReadOffset ;;
  if Z.land state rwmutexWrite =? 0 then ret tt
  else RLock_wait fuel.

(** Lines 54-66. *)
Definition TryRLock : prog bool :=
  state <- atomic.AddUint32 rwmutexReadOffset ;;
  if Z.land state rwmutexWrite =? 0 then ret true
  else atomic.AddUint32 rwmutexReaderDecrease ;; ret false.

(** Lines 72-80. *)
Definition RUnlock : prog unit :=
  state <- atomic.AddUint32 rwmutexReaderDecrease ;;
  if Z.land state rwmutexUnderflow =? rwmutexUnderflow
  then panic "spinlock: RUnlock of unlocked RWMutex"
  else ret tt.

(** Lines 85-89:
    [for !atomic.CompareAndSwapUint32(&rw.state, rwmutexUnlocked, rwmutexWrite)
      { runtime.Gosched() }]. *)
Fixpoint Lock (fuel : nat) : prog unit :=
  match fuel with
  | O => spin
  | S fuel' =>
      ok <- atomic.CompareAndSwapUint32 rwmutexUnlocked rwmutexWrite ;;
      if negb ok then runtime.Gosched ;; Lock fuel' else ret tt
  end.

(** Lines 93-95. *)
Definition TryLock : prog bool :=
  atomic.CompareAndSwapUint32 rwmutexUnlocked rwmutexWrite.

(** Lines 103-109. *)
Definition Unlock : prog unit :=
  state <- atomic.AddUint32 rwmutexWriterUnset ;;
  if Z.land state rwmutexWrite >? 0
  then panic "sync: Unlock of unlocked RWMutex"
  else ret tt.

(** Lines 113-120, [type rlocker RWMutex]: the [sync.Locker] returned by
    [RLocker]. *)
Module rlocker.
Definition Lock (fuel : nat) : prog unit := RLock fuel.
Definition Unlock : prog unit := RUnlock.
End rlocker.

End RWMutex.

(** ** Vocabulary of the statements *)

(** The panic messages of the three unlock methods. *)
Definition msg_mutex : string := "spinlock: unlock of unlocked mutex".
Definition msg_runlock : string := "spinlock: RUnlock of unlocked RWMutex".
Definition msg_unlock : string := "sync: Unlock of unlocked RWMutex".

(** The events of [n] failed attempts of a compare-and-swap loop, each
    followed by a call to [runtime.Gosched] when the loop [yield]s. *)
Fixpoint failed_attempts (old new : Z) (yield : bool) (n : nat) : list event :=
  match n with
  | O => []
  | S n' =>
      EvCas old new false
        :: (if yield then [EvGosched] else []) ++ failed_attempts old new yield n'
  end.

(** What a loop does after a failed attempt, [L] being the rest of the loop. *)
Definition after_failure (yield : bool) (L : prog unit) : prog unit :=
  if yield then runtime.Gosched ;; L else L.

(** Every failed compare-and-swap of a trace is followed by [EvGosched]
    (or is the last event so far). *)
Fixpoint yields_after_each_failure (t : list event) : bool :=
  match t with
  | [] => true
  | EvCas _ _ false :: t' =>
      match t' with
      | [] => true
      | EvGosched :: _ => yields_after_each_failure t'
      | _ => false
      end
  | _ :: t' => yields_after_each_failure t'
  end.

(** Where a compare-and-swap loop [L], started with [fuel] attempts, can be
    after some of its steps: it has returned, right after a successful
    compare-and-swap that made the word [new]; or it is about to attempt
    (again); or its last attempt failed and it is about to yield. *)
Definition acquires_by_cas (L : nat -> prog unit) (old new : Z) (yield : bool)
  (fuel : nat) (r : prog unit * Z * list event) : Prop :=
  let '(p, w, t) := r in
  (exists n : nat,
      (n < fuel)%nat
      /\ t = failed_attempts old new yield n ++ [EvCas old new true]
      /\ p = ret tt /\ w = new)
  \/ (exists n : nat,
         (n <= fuel)%nat
         /\ t = failed_attempts old new yield n
         /\ p = L (fuel - n)%nat)
  \/ (exists n : nat,
         (n < fuel)%nat /\ yield = true
         /\ t = failed_attempts old new yield n ++ [EvCas old new false]
         /\ p = after_failure true (L (fuel - S n)%nat)).

(** The reader-count field with all its 31 bits set. *)
Definition reader_count_underflowed (state : Z) : bool :=
  reader_count state =? Z.ones 31.

(** *** Goroutines calling [RLock] and [RUnlock] *)

Inductive rcall : Type := CallRLock | CallRUnlock.

Definition rcall_prog (fuel : nat) (c : rcall) : prog unit :=
  match c with
  | CallRLock => RWMutex.RLock fuel
  | CallRUnlock => RWMutex.RUnlock
  end.

(** A goroutine making the calls [cs] one after the other. *)
Fixpoint calls (fuel : nat) (cs : list rcall) : prog unit :=
  match cs with
  | [] => ret tt
  | c :: cs' => rcall_prog fuel c ;; calls fuel cs'
  end.

(** Number of [RLock] calls minus number of [RUnlock] calls. *)
Fixpoint balance (cs : list rcall) : Z :=
  match cs with
  | [] => 0
  | CallRLock :: cs' => balance cs' + 1
  | CallRUnlock :: cs' => balance cs' - 1
  end.

Fixpoint total_balance (css : list (list rcall)) : Z :=
  match css with
  | [] => 0
  | cs :: css' => balance cs + total_balance css'
  end.

Fixpoint set_nth {A} (i : nat) (x : A) (l : list A) : list A :=
  match l, i with
  | [], _ => []
  | _ :: l', O => x :: l'
  | y :: l', S i' => y :: set_nth i' x l'
  end.

(** Goroutine [i] of the pool takes its next atomic step, if it has one. *)
Definition sched_step (i : nat) (ps : list (prog unit)) (m : Z)
  : list (prog unit) * Z :=
  match nth_error ps i with
  | Some p =>
      match step p m with
      | Some (_, p', m') => (set_nth i p' ps, m')
      | None => (ps, m)
      end
  | None => (ps, m)
  end.

(** An interleaving: the goroutines step in the order [sched] lists them. *)
Fixpoint interleave (sched : list nat) (ps : list (prog unit)) (m : Z)
  : list (prog unit) * Z :=
  match sched with
  | [] => (ps, m)
  | i :: sched' =>
      let '(ps', m') := sched_step i ps m in interleave sched' ps' m'
  end.

Definition returned (p : prog unit) : Prop := p = ret tt.

(** [p] is a goroutine with the calls [cs] left to make, or one that has
    panicked with calls left over. *)
Definition tracks (fuel : nat) (p : prog unit) (cs : list rcall) : Prop :=
  p = calls fuel cs \/ exists msg, p = Done (Panics msg).

(** Calls made one after the other with [held] read locks outstanding:
    every [RUnlock] has an [RLock] before it to undo, and the number of
    outstanding read locks stays below [2^31]. *)
Fixpoint matched (held : Z) (cs : list rcall) : bool :=
  match cs with
  | [] => true
  | CallRLock :: cs' => (held + 1 <? 2 ^ 31) && matched (held + 1) cs'
  | CallRUnlock :: cs' => (0 <? held) && matched (held - 1) cs'
  end.

(** The word counts, modulo [2^32], the read locks taken and not yet given
    back: the goroutines [ps] started with a balance of [total] between
    them and have the calls [css] left. *)
Definition pool_inv (fuel : nat) (total : Z)
  (ps : list (prog unit)) (css : list (list rcall)) (m : Z) : Prop :=
  Forall2 (tracks fuel) ps css
  /\ m = Int.uint32 (2 * (total - total_balance css)).

(** Number of [RLock] calls in [cs]. *)
Fixpoint rlocks (cs : list rcall) : Z :=
  match cs with
  | [] => 0
  | CallRLock :: cs' => rlocks cs' + 1
  | CallRUnlock :: cs' => rlocks cs'
  end.

Fixpoint zsum (l : list Z) : Z :=
  match l with
  | [] => 0
  | x :: l' => x + zsum l'
  end.

(** A goroutine seen as the read locks it holds and the calls it has left. *)
Definition reader : Type := (Z * list rcall)%type.

Definition held (g : reader) : Z := fst g.
Definition todo (g : reader) : list rcall := snd g.

(** Number of calls goroutine [j] has left. *)
Definition remaining (gs : list reader) (j : nat) : nat :=
  match nth_error gs j with
  | Some g => List.length (todo g)
  | None => 0%nat
  end.

(** No goroutine has panicked, each holds what its calls so far took, and
    the word is exactly twice the read locks held, at most [bound] of them
    ever being held at once. *)
Definition readers_inv (fuel : nat) (bound : Z)
  (ps : list (prog unit)) (gs : list reader) (m : Z) : Prop :=
  Forall2 (fun p g => p = calls fuel (todo g) /\ matched (held g) (todo g) = true) ps gs
  /\ Forall (fun g => 0 <= held g) gs
  /\ m = 2 * zsum (map held gs)
  /\ zsum (map held gs) + zsum (map (fun g => rlocks (todo g)) gs) <= bound.

Ltac unfold_calls :=
  cbv [Mutex.TryLock Mutex.Unlock
       RWMutex.TryRLock RWMutex.RUnlock RWMutex.TryLock RWMutex.Unlock RWMutex.RLock
       atomic.CompareAndSwapInt32 atomic.AddInt32 atomic.CompareAndSwapUint32
       atomic.AddUint32 atomic.LoadUint32 runtime.Gosched ret panic spin
       ok_of word_of trace_of];
  cbn [run step bind run_under Int.wrap fst snd].

(** ** Pools seen through program points *)

(** A pool whose goroutines are at program points of type [Ph]: [next] is
    what one atomic step does at a point to the point and to the word. *)
Definition phase_step {Ph : Type} (next : Ph -> Z -> Ph * Z)
  (i : nat) (phs : list Ph) (m : Z) : list Ph * Z :=
  match nth_error phs i with
  | Some ph => let '(ph', m') := next ph m in (set_nth i ph' phs, m')
  | None => (phs, m)
  end.

Fixpoint phase_interleave {Ph : Type} (next : Ph -> Z -> Ph * Z)
  (sched : list nat) (phs : list Ph) (m : Z) : list Ph * Z :=
  match sched with
  | [] => (phs, m)
  | i :: sched' =>
      let '(phs', m') := phase_step next i phs m in
      phase_interleave next sched' phs' m'
  end.

(** ** Goroutines sharing a [Mutex] *)

(** What a goroutine does with the mutex, one section after the other:
    [m.Lock(); ...; m.Unlock()] or [if m.TryLock() { ...; m.Unlock() }]. *)
Inductive msection : Type := UseLock | UseTryLock.

Definition msection_prog (fuel : nat) (s : msection) : prog unit :=
  match s with
  | UseLock => Mutex.Lock fuel ;; Mutex.Unlock
  | UseTryLock => ok <- Mutex.TryLock ;; if ok then Mutex.Unlock else ret tt
  end.

Fixpoint mjobs (fuel : nat) (js : list msection) : prog unit :=
  match js with
  | [] => ret tt
  | s :: js' => msection_prog fuel s ;; mjobs fuel js'
  end.

(** A goroutine holds the mutex when its next atomic step is the add of
    [Unlock], the only add there is in such a goroutine. *)
Definition holds_mutex (p : prog unit) : bool :=
  match p with
  | Add _ _ _ => true
  | _ => false
  end.

Definition has_panicked (p : prog unit) : bool :=
  match p with
  | Done (Panics _) => true
  | _ => false
  end.

(** The program points of such a goroutine, [js] being the sections left
    after the current one. *)
Inductive mphase : Type :=
| MIdle (js : list msection)               (* between two sections *)
| MAttempt (k : nat) (js : list msection)  (* in [Lock], [k] attempts left *)
| MYield (k : nat) (js : list msection)    (* in [Lock], about to yield *)
| MHolding (js : list msection)            (* about to [Unlock] *)
| MPanicked.

Definition mprog (fuel : nat) (ph : mphase) : prog unit :=
  match ph with
  | MIdle js => mjobs fuel js
  | MAttempt k js => (Mutex.Lock k ;; Mutex.Unlock) ;; mjobs fuel js
  | MYield k js => ((runtime.Gosched ;; Mutex.Lock k) ;; Mutex.Unlock) ;; mjobs fuel js
  | MHolding js => Mutex.Unlock ;; mjobs fuel js
  | MPanicked => panic msg_mutex
  end.

Definition mattempt (ph : mphase) (k : nat) (js : list msection) (m : Z) : mphase * Z :=
  match k with
  | O => (ph, m)
  | S k' =>
      if m =? mutexUnlocked then (MHolding js, mutexLocked) else (MYield k' js, m)
  end.

Definition mnext (fuel : nat) (ph : mphase) (m : Z) : mphase * Z :=
  match ph with
  | MIdle [] => (ph, m)
  | MIdle (UseLock :: js) => mattempt ph fuel js m
  | MIdle (UseTryLock :: js) =>
      if m =? mutexUnlocked then (MHolding js, mutexLocked) else (MIdle js, m)
  | MAttempt k js => mattempt ph k js m
  | MYield k js => (MAttempt k js, m)
  | MHolding js =>
      let v := Int.int32 (m + - mutexLocked) in
      if negb (v =? mutexUnlocked) then (MPanicked, v) else (MIdle js, v)
  | MPanicked => (ph, m)
  end.

Definition mholding (ph : mphase) : Z :=
  match ph with
  | MHolding _ => 1
  | _ => 0
  end.

Definition mpanicked (ph : mphase) : bool :=
  match ph with
  | MPanicked => true
  | _ => false
  end.

(** The word is the number of goroutines holding the mutex, at most one,
    and none has panicked. *)
Definition mutex_inv (phs : list mphase) (m : Z) : Prop :=
  m = zsum (map mholding phs)
  /\ 0 <= m <= 1
  /\ Forall (fun ph => mpanicked ph = false) phs.

(** ** Goroutines sharing an [RWMutex] *)

(** What a goroutine does with the lock, one section after the other:
    [rw.RLock(); ...; rw.RUnlock()], the same through [rw.RLocker()],
    [if rw.TryRLock() { ...; rw.RUnlock() }], [rw.Lock(); ...; rw.Unlock()]
    or [if rw.TryLock() { ...; rw.Unlock() }]. *)
Inductive rwsection : Type :=
| UseRLock | UseRLocker | UseTryRLock | UseWLock | UseTryWLock.

Definition rwsection_prog (fuel : nat) (s : rwsection) : prog unit :=
  match s with
  | UseRLock => RWMutex.RLock fuel ;; RWMutex.RUnlock
  | UseRLocker => RWMutex.rlocker.Lock fuel ;; RWMutex.rlocker.Unlock
  | UseTryRLock => ok <- RWMutex.TryRLock ;; if ok then RWMutex.RUnlock else ret tt
  | UseWLock => RWMutex.Lock fuel ;; RWMutex.Unlock
  | UseTryWLock => ok <- RWMutex.TryLock ;; if ok then RWMutex.Unlock else ret tt
  end.

Fixpoint rwjobs (fuel : nat) (js : list rwsection) : prog unit :=
  match js with
  | [] => ret tt
  | s :: js' => rwsection_prog fuel s ;; rwjobs fuel js'
  end.

(** The program points of such a goroutine, [js] being the sections left
    after the current one. *)
Inductive rwphase : Type :=
| RWIdle (js : list rwsection)                (* between two sections *)
| RPolling (k : nat) (js : list rwsection)    (* in [RLock], offset added, [k] polls left *)
| RPollYield (k : nat) (js : list rwsection)  (* in [RLock], about to yield *)
| RHolding (js : list rwsection)              (* about to [RUnlock] *)
| RUndoing (js : list rwsection)              (* in [TryRLock], about to take the offset back *)
| WAttempt (k : nat) (js : list rwsection)    (* in [Lock], [k] attempts left *)
| WYield (k : nat) (js : list rwsection)      (* in [Lock], about to yield *)
| WHolding (js : list rwsection)              (* about to [Unlock] *)
| RWPanicked (msg : string).

Definition rwprog (fuel : nat) (ph : rwphase) : prog unit :=
  match ph with
  | RWIdle js => rwjobs fuel js
  | RPolling k js => (RWMutex.RLock_wait k ;; RWMutex.RUnlock) ;; rwjobs fuel js
  | RPollYield k js =>
      ((runtime.Gosched ;; RWMutex.RLock_wait k) ;; RWMutex.RUnlock) ;; rwjobs fuel js
  | RHolding js => RWMutex.RUnlock ;; rwjobs fuel js
  | RUndoing js =>
      (ok <- (atomic.AddUint32 rwmutexReaderDecrease ;; ret false) ;;
       if ok then RWMutex.RUnlock else ret tt) ;; rwjobs fuel js
  | WAttempt k js => (RWMutex.Lock k ;; RWMutex.Unlock) ;; rwjobs fuel js
  | WYield k js => ((runtime.Gosched ;; RWMutex.Lock k) ;; RWMutex.Unlock) ;; rwjobs fuel js
  | WHolding js => RWMutex.Unlock ;; rwjobs fuel js
  | RWPanicked msg => panic msg
  end.

Definition wattempt (ph : rwphase) (k : nat) (js : list rwsection) (m : Z) : rwphase * Z :=
  match k with
  | O => (ph, m)
  | S k' =>
      if m =? rwmutexUnlocked then (WHolding js, rwmutexWrite) else (WYield k' js, m)
  end.

Definition rwnext (fuel : nat) (ph : rwphase) (m : Z) : rwphase * Z :=
  match ph with
  | RWIdle [] => (ph, m)
  | RWIdle (UseRLock :: js) | RWIdle (UseRLocker :: js) =>
      let v := Int.uint32 (m + rwmutexReadOffset) in
      if Z.land v rwmutexWrite =? 0 then (RHolding js, v) else (RPolling fuel js, v)
  | RWIdle (UseTryRLock :: js) =>
      let v := Int.uint32 (m + rwmutexReadOffset) in
      if Z.land v rwmutexWrite =? 0 then (RHolding js, v) else (RUndoing js, v)
  | RWIdle (UseWLock :: js) => wattempt ph fuel js m
  | RWIdle (UseTryWLock :: js) =>
      if m =? rwmutexUnlocked then (WHolding js, rwmutexWrite) else (RWIdle js, m)
  | RPolling O js => (ph, m)
  | RPolling (S k) js =>
      if Z.land m rwmutexWrite =? 0 then (RHolding js, m) else (RPollYield k js, m)
  | RPollYield k js => (RPolling k js, m)
  | RHolding js =>
      let v := Int.uint32 (m + rwmutexReaderDecrease) in
      if Z.land v rwmutexUnderflow =? rwmutexUnderflow
      then (RWPanicked msg_runlock, v) else (RWIdle js, v)
  | RUndoing js => (RWIdle js, Int.uint32 (m + rwmutexReaderDecrease))
  | WAttempt k js => wattempt ph k js m
  | WYield k js => (WAttempt k js, m)
  | WHolding js =>
      let v := Int.uint32 (m + rwmutexWriterUnset) in
      if Z.land v rwmutexWrite >? 0
      then (RWPanicked msg_unlock, v) else (RWIdle js, v)
  | RWPanicked _ => (ph, m)
  end.

(** The goroutine has added its read offset and not yet taken it back. *)
Definition incremented (ph : rwphase) : Z :=
  match ph with
  | RPolling _ _ | RPollYield _ _ | RHolding _ | RUndoing _ => 1
  | _ => 0
  end.

(** The goroutine holds the lock for reading. *)
Definition reading (ph : rwphase) : Z :=
  match ph with
  | RHolding _ => 1
  | _ => 0
  end.

(** The goroutine holds the lock for writing. *)
Definition writing (ph : rwphase) : Z :=
  match ph with
  | WHolding _ => 1
  | _ => 0
  end.

Definition rwpanicked (ph : rwphase) : bool :=
  match ph with
  | RWPanicked _ => true
  | _ => false
  end.

(** The word is twice the read offsets outstanding plus one for a writer;
    at most one writer holds the lock, and no reader holds it when a writer
    does; nobody has panicked. *)
Definition rw_inv (bound : Z) (phs : list rwphase) (m : Z) : Prop :=
  m = 2 * zsum (map incremented phs) + zsum (map writing phs)
  /\ zsum (map writing phs) <= 1
  /\ (zsum (map writing phs) = 1 -> zsum (map reading phs) = 0)
  /\ Forall (fun ph => rwpanicked ph = false) phs
  /\ Z.of_nat (List.length phs) = bound.

(** ** Vocabulary for the polling loop of [RLock] *)

(** The event saw a word whose write flag is clear. *)
Definition saw_clear (e : event) : bool :=
  match e with
  | EvAdd _ v => negb (write_flag v)
  | EvLoad v => negb (write_flag v)
  | _ => false
  end.

(** [t] is a sequence of polls: loads only, each load that saw the write
    flag set followed by a yield (unless it is the last event so far), and
    nothing after a load that saw it clear. *)
Fixpoint polls (t : list event) : bool :=
  match t with
  | [] => true
  | EvLoad v :: t' =>
      if write_flag v
      then match t' with
           | [] => true
           | EvGosched :: t'' => polls t''
           | _ => false
           end
      else match t' with
           | [] => true
           | _ => false
           end
  | _ => false
  end.

(** Rounds of a waiting loop in which the lock was found taken: the word
    found at the attempt and the word there at the yield that follows. *)
Definition busy_obs (busy : list (Z * Z)) : list Z :=
  flat_map (fun ab => [fst ab; snd ab]) busy.

Definition busy_polls (busy : list (Z * Z)) : list event :=
  flat_map (fun ab => [EvLoad (fst ab); EvGosched]) busy.

(** * Arithmetic of the lock words *)

Lemma rwmutexWrite_val : rwmutexWrite = 1.
Proof. reflexivity. Qed.

Lemma rwmutexReadOffset_val : rwmutexReadOffset = 2.
Proof. reflexivity. Qed.

Lemma rwmutexUnderflow_val : rwmutexUnderflow = 2 ^ 32 - 2.
Proof. reflexivity. Qed.

Lemma rwmutexWriterUnset_val : rwmutexWriterUnset = 2 ^ 32 - 1.
Proof. reflexivity. Qed.

Lemma rwmutexReaderDecrease_val : rwmutexReaderDecrease = 2 ^ 32 - 2.
Proof. reflexivity. Qed.

Lemma write_flag_odd s : write_flag s = Z.odd s.
Proof. unfold write_flag. apply Z.bit0_odd. Qed.

Lemma reader_count_div s : reader_count s = s / 2.
Proof. unfold reader_count. now rewrite Z.shiftr_div_pow2. Qed.

Lemma land_write s : Z.land s rwmutexWrite = s mod 2.
Proof. rewrite rwmutexWrite_val. change 1 with (Z.ones 1). now rewrite Z.land_ones. Qed.

Lemma land_write_flag s : (Z.land s rwmutexWrite =? 0) = negb (write_flag s).
Proof.
  rewrite land_write, write_flag_odd, Zmod_odd.
  now destruct (Z.odd s).
Qed.

Lemma land_write_pos s : (Z.land s rwmutexWrite >? 0) = write_flag s.
Proof.
  rewrite land_write, write_flag_odd, Zmod_odd.
  now destruct (Z.odd s).
Qed.

Lemma odd_mod2 s : s mod 2 = if Z.odd s then 1 else 0.
Proof. apply Zmod_odd. Qed.

Lemma uint32_high_bits v n :
  Int.is_uint32 v -> 32 <= n -> Z.testbit v n = false.
Proof.
  intros [Hlo Hhi] Hn.
  destruct (Z.eq_dec v 0) as [-> | Hv]; [apply Z.testbit_0_l |].
  apply Z.bits_above_log2; [lia |].
  apply Z.log2_lt_pow2; [lia |].
  apply Z.lt_le_trans with (2 ^ 32); [lia |].
  apply Z.pow_le_mono_r; lia.
Qed.

(** Masking with [rwmutexUnderflow] drops bit 0 of a 32-bit word. *)
Lemma land_underflow v :
  Int.is_uint32 v -> Z.land v rwmutexUnderflow = 2 * (v / 2).
Proof.
  intros [Hlo Hhi]. rewrite rwmutexUnderflow_val.
  change (2 ^ 32 - 2) with (Z.shiftl (Z.ones 31) 1).
  replace (2 * (v / 2)) with (Z.shiftl (Z.shiftr v 1) 1)
    by (rewrite Z.shiftl_mul_pow2, Z.shiftr_div_pow2 by lia; change (2 ^ 1) with 2; lia).
  apply Z.bits_inj'. intros n Hn.
  rewrite Z.land_spec.
  destruct (Z.ltb_spec n 1) as [Hn1 | Hn1].
  - rewrite !Z.shiftl_spec_low by lia. apply andb_false_r.
  - rewrite !Z.shiftl_spec_high by lia.
    rewrite Z.shiftr_spec by lia. replace (n - 1 + 1) with n by lia.
    destruct (Z.ltb_spec n 32) as [Hn32 | Hn32].
    + rewrite Z.ones_spec_low by lia. apply andb_true_r.
    + rewrite Z.ones_spec_high by lia. rewrite andb_false_r.
      symmetry. apply uint32_high_bits; [split; assumption | lia].
Qed.

Lemma underflow_test v :
  Int.is_uint32 v ->
  (Z.land v rwmutexUnderflow =? rwmutexUnderflow) = reader_count_underflowed v.
Proof.
  intros Hv. rewrite (land_underflow v Hv).
  unfold reader_count_underflowed. rewrite reader_count_div, rwmutexUnderflow_val.
  change (Z.ones 31) with (2 ^ 31 - 1). change (2 ^ 32 - 2) with (2 * (2 ^ 31 - 1)).
  destruct (Z.eqb_spec (v / 2) (2 ^ 31 - 1)) as [E | E].
  - rewrite E. apply Z.eqb_refl.
  - apply Z.eqb_neq. lia.
Qed.

(** The reader-count field is all ones when bits 1 to 31 of the word are set. *)
Lemma underflowed_bits v :
  Int.is_uint32 v ->
  reader_count_underflowed v = true
  <-> (forall i, 1 <= i <= 31 -> Z.testbit v i = true).
Proof.
  intros Hv. unfold reader_count_underflowed, reader_count.
  rewrite Z.eqb_eq. split.
  - intros E i Hi.
    replace i with (i - 1 + 1) by lia.
    rewrite <- Z.shiftr_spec by lia. rewrite E.
    apply Z.ones_spec_low. lia.
  - intros H. apply Z.bits_inj'. intros n Hn.
    rewrite Z.shiftr_spec by lia.
    destruct (Z.ltb_spec n 31) as [Hlt | Hge].
    + rewrite Z.ones_spec_low by lia. apply H. lia.
    + rewrite Z.ones_spec_high by lia. apply uint32_high_bits; [exact Hv | lia].
Qed.

Lemma uint32_small z : Int.is_uint32 z -> Int.uint32 z = z.
Proof. intros H. unfold Int.uint32. apply Z.mod_small. exact H. Qed.

Lemma uint32_range z : Int.is_uint32 (Int.uint32 z).
Proof. unfold Int.is_uint32, Int.uint32. apply Z.mod_pos_bound. reflexivity. Qed.



(** * The methods, one call at a time *)

Lemma run_Mutex_Unlock s :
  run Mutex.Unlock s =
  let v := Int.int32 (s + - mutexLocked) in
  (if v =? mutexUnlocked then Returns tt else Panics msg_mutex,
   v, [EvAdd (- mutexLocked) v]).
Proof.
  unfold_calls.
  destruct (Int.int32 (s + - mutexLocked) =? mutexUnlocked); reflexivity.
Qed.


Lemma run_RUnlock s :
  run RWMutex.RUnlock s =
  let v := Int.uint32 (s + rwmutexReaderDecrease) in
  (if Z.land v rwmutexUnderflow =? rwmutexUnderflow then Panics msg_runlock else Returns tt,
   v, [EvAdd rwmutexReaderDecrease v]).
Proof.
  unfold_calls.
  destruct (Z.land _ rwmutexUnderflow =? rwmutexUnderflow); reflexivity.
Qed.

Lemma run_Unlock s :
  run RWMutex.Unlock s =
  let v := Int.uint32 (s + rwmutexWriterUnset) in
  (if Z.land v rwmutexWrite >? 0 then Panics msg_unlock else Returns tt,
   v, [EvAdd rwmutexWriterUnset v]).
Proof.
  unfold_calls.
  destruct (Z.land _ rwmutexWrite >? 0); reflexivity.
Qed.

Lemma run_TryRLock s :
  run RWMutex.TryRLock s =
  let v := Int.uint32 (s + rwmutexReadOffset) in
  if Z.land v rwmutexWrite =? 0
  then (Returns true, v, [EvAdd rwmutexReadOffset v])
  else let u := Int.uint32 (v + rwmutexReaderDecrease) in
       (Returns false, u, [EvAdd rwmutexReadOffset v; EvAdd rwmutexReaderDecrease u]).
Proof.
  unfold_calls.
  destruct (Z.land _ rwmutexWrite =? 0); reflexivity.
Qed.

Lemma run_TryLock s :
  run RWMutex.TryLock s =
  (Returns (s =? rwmutexUnlocked),
   if s =? rwmutexUnlocked then rwmutexWrite else s,
   [EvCas rwmutexUnlocked rwmutexWrite (s =? rwmutexUnlocked)]).
Proof.
  unfold_calls.
  destruct (s =? rwmutexUnlocked); reflexivity.
Qed.


(** Adding [rwmutexReaderDecrease] is subtracting [rwmutexReadOffset], and
    adding [rwmutexWriterUnset] is subtracting [rwmutexWrite], modulo [2^32]. *)
Lemma add_ReaderDecrease s :
  Int.uint32 (s + rwmutexReaderDecrease) = Int.uint32 (s - rwmutexReadOffset).
Proof.
  unfold Int.uint32. rewrite rwmutexReaderDecrease_val, rwmutexReadOffset_val.
  replace (s + (2 ^ 32 - 2)) with (s - 2 + 1 * 2 ^ 32) by lia.
  apply Z.mod_add. discriminate.
Qed.

Lemma add_WriterUnset s :
  Int.uint32 (s + rwmutexWriterUnset) = Int.uint32 (s - rwmutexWrite).
Proof.
  unfold Int.uint32. rewrite rwmutexWriterUnset_val, rwmutexWrite_val.
  replace (s + (2 ^ 32 - 1)) with (s - 1 + 1 * 2 ^ 32) by lia.
  apply Z.mod_add. discriminate.
Qed.

(** The undo of [TryRLock] restores the word. *)
Lemma add_then_decrease s :
  Int.is_uint32 s ->
  Int.uint32 (Int.uint32 (s + rwmutexReadOffset) + rwmutexReaderDecrease) = s.
Proof.
  intros Hs. rewrite add_ReaderDecrease. unfold Int.uint32.
  rewrite Zminus_mod_idemp_l.
  replace (s + rwmutexReadOffset - rwmutexReadOffset) with s by lia.
  apply Z.mod_small, Hs.
Qed.

(** Adding the read offset keeps bit 0. *)
Lemma write_flag_add_offset s :
  write_flag (Int.uint32 (s + rwmutexReadOffset)) = write_flag s.
Proof.
  rewrite (write_flag_odd s), (write_flag_odd (Int.uint32 _)), rwmutexReadOffset_val.
  unfold Int.uint32.
  pose proof (odd_mod2 s) as H1.
  pose proof (odd_mod2 ((s + 2) mod 2 ^ 32)) as H2.
  change (2 ^ 32) with 4294967296 in *. revert H1 H2.
  destruct (Z.odd s), (Z.odd ((s + 2) mod 4294967296)); intros H1 H2; try reflexivity;
    exfalso; Z.div_mod_to_equations; lia.
Qed.

Lemma write_flag_sub_offset s :
  write_flag (Int.uint32 (s - rwmutexReadOffset)) = write_flag s.
Proof.
  rewrite (write_flag_odd s), (write_flag_odd (Int.uint32 _)), rwmutexReadOffset_val.
  unfold Int.uint32.
  pose proof (odd_mod2 s) as H1.
  pose proof (odd_mod2 ((s - 2) mod 2 ^ 32)) as H2.
  change (2 ^ 32) with 4294967296 in *. revert H1 H2.
  destruct (Z.odd s), (Z.odd ((s - 2) mod 4294967296)); intros H1 H2; try reflexivity;
    exfalso; Z.div_mod_to_equations; lia.
Qed.

Lemma write_flag_sub_write s :
  write_flag (Int.uint32 (s - rwmutexWrite)) = negb (write_flag s).
Proof.
  rewrite (write_flag_odd s), (write_flag_odd (Int.uint32 _)), rwmutexWrite_val.
  unfold Int.uint32.
  pose proof (odd_mod2 s) as H1.
  pose proof (odd_mod2 ((s - 1) mod 2 ^ 32)) as H2.
  change (2 ^ 32) with 4294967296 in *. revert H1 H2.
  destruct (Z.odd s), (Z.odd ((s - 1) mod 4294967296)); intros H1 H2; try reflexivity;
    exfalso; Z.div_mod_to_equations; lia.
Qed.

(** With the flag set, subtracting [rwmutexWrite] neither borrows nor wraps. *)
Lemma sub_write_held s :
  Int.is_uint32 s -> write_flag s = true ->
  Int.uint32 (s - rwmutexWrite) = s - rwmutexWrite
  /\ reader_count (s - rwmutexWrite) = reader_count s.
Proof.
  intros Hs Hf. rewrite write_flag_odd in Hf.
  pose proof (odd_mod2 s) as H1. rewrite Hf in H1.
  rewrite !reader_count_div, rwmutexWrite_val.
  unfold Int.uint32, Int.is_uint32 in *. change (2 ^ 32) with 4294967296 in *.
  split.
  - apply Z.mod_small. Z.div_mod_to_equations; lia.
  - Z.div_mod_to_equations; lia.
Qed.

(** The reader count after subtracting one read offset. *)
Lemma reader_count_sub_offset s :
  Int.is_uint32 s ->
  reader_count (Int.uint32 (s - rwmutexReadOffset)) = (reader_count s - 1) mod 2 ^ 31.
Proof.
  intros Hs. rewrite !reader_count_div, rwmutexReadOffset_val.
  unfold Int.uint32, Int.is_uint32 in *.
  change (2 ^ 32) with 4294967296 in *. change (2 ^ 31) with 2147483648.
  Z.div_mod_to_equations; lia.
Qed.

Lemma reader_count_add_offset s :
  Int.is_uint32 s ->
  reader_count (Int.uint32 (s + rwmutexReadOffset)) = (reader_count s + 1) mod 2 ^ 31.
Proof.
  intros Hs. rewrite !reader_count_div, rwmutexReadOffset_val.
  unfold Int.uint32, Int.is_uint32 in *.
  change (2 ^ 32) with 4294967296 in *. change (2 ^ 31) with 2147483648.
  Z.div_mod_to_equations; lia.
Qed.

(** The underflow test of [RUnlock] fires exactly from a zero reader count. *)
Lemma underflowed_sub_offset s :
  Int.is_uint32 s ->
  reader_count_underflowed (Int.uint32 (s - rwmutexReadOffset)) = (reader_count s =? 0).
Proof.
  intros Hs. unfold reader_count_underflowed.
  rewrite (reader_count_sub_offset s Hs), reader_count_div.
  unfold Int.is_uint32 in Hs.
  change (Z.ones 31) with 2147483647. change (2 ^ 31) with 2147483648.
  change (2 ^ 32) with 4294967296 in Hs.
  destruct (Z.eqb_spec (s / 2) 0) as [E | E].
  - rewrite E. reflexivity.
  - apply Z.eqb_neq. Z.div_mod_to_equations; lia.
Qed.

Lemma unlocked_iff s :
  (s =? rwmutexUnlocked) = (reader_count s =? 0) && negb (write_flag s).
Proof.
  rewrite reader_count_div, write_flag_odd. unfold rwmutexUnlocked.
  pose proof (odd_mod2 s) as H1. revert H1.
  destruct (Z.odd s); intros H1; cbn [negb];
    rewrite ?andb_false_r, ?andb_true_r.
  - apply Z.eqb_neq. intros ->. discriminate.
  - destruct (Z.eqb_spec s 0) as [-> | E]; [reflexivity |].
    symmetry. apply Z.eqb_neq. Z.div_mod_to_equations; lia.
Qed.

(** [Mutex.Unlock] (lines 43-48) on any [int32] word. *)
Lemma Mutex_Unlock_held s :
  Int.is_int32 s ->
  run Mutex.Unlock s =
  (if s =? mutexLocked then Returns tt else Panics msg_mutex,
   Int.int32 (s - mutexLocked),
   [EvAdd (- mutexLocked) (Int.int32 (s - mutexLocked))]).
Proof.
  intros Hs. rewrite run_Mutex_Unlock. cbv zeta.
  replace (s + - mutexLocked) with (s - mutexLocked) by lia.
  f_equal. f_equal.
  unfold mutexLocked, mutexUnlocked, Int.int32, Int.is_int32 in *.
  change (2 ^ 32) with 4294967296. change (2 ^ 31) with 2147483648 in *.
  destruct (Z.eqb_spec s 1) as [-> | E].
  - reflexivity.
  - destruct (Z.eqb_spec ((s - 1 + 2147483648) mod 4294967296 - 2147483648) 0) as [E0 | E0];
      [exfalso; Z.div_mod_to_equations; lia | reflexivity].
Qed.

(** * Unlocking *)

(** C1: [Mutex.Unlock] is one atomic add of [-mutexLocked] (modulo [2^32])
    to the word.  It panics exactly when the mutex was not locked on entry,
    which is exactly when the word after the add is not [mutexUnlocked].
    From [mutexLocked] it returns and leaves [mutexUnlocked]; from
    [mutexUnlocked], a mutex that was never locked, it panics. *)
Theorem Mutex_Unlock_panics_iff_not_held (s : Z) (Hs : Int.is_int32 s) :
  let r := run Mutex.Unlock s in
  word_of r = Int.int32 (s - mutexLocked)
  /\ trace_of r = [EvAdd (- mutexLocked) (word_of r)]
  /\ ok_of r = (if s =? mutexLocked then Returns tt else Panics msg_mutex)
  /\ (s =? mutexLocked) = (word_of r =? mutexUnlocked)
  /\ run Mutex.Unlock mutexLocked
     = (Returns tt, mutexUnlocked, [EvAdd (- mutexLocked) mutexUnlocked])
  /\ run Mutex.Unlock mutexUnlocked
     = (Panics msg_mutex, -1, [EvAdd (- mutexLocked) (-1)]).
Proof.
  cbv zeta. rewrite (Mutex_Unlock_held s Hs). unfold word_of, trace_of, ok_of.
  cbn [fst snd].
  split; [reflexivity | split; [reflexivity | split; [reflexivity | split]]].
  - unfold mutexLocked, mutexUnlocked, Int.int32, Int.is_int32 in *.
    change (2 ^ 32) with 4294967296. change (2 ^ 31) with 2147483648 in *.
    destruct (Z.eqb_spec s 1) as [-> | E]; [reflexivity |].
    symmetry. apply Z.eqb_neq. Z.div_mod_to_equations; lia.
  - split; reflexivity.
Qed.

Lemma Mutex_Unlock_panics_iff_not_held_witness :
  Int.is_int32 7
  /\ word_of (run Mutex.Unlock 7) = Int.int32 (7 - mutexLocked)
  /\ ok_of (run Mutex.Unlock 7) = Panics msg_mutex.
Proof.
  assert (H7 : Int.is_int32 7) by (unfold Int.is_int32; lia).
  destruct (Mutex_Unlock_panics_iff_not_held 7 H7) as (Hw & _ & Hok & _).
  split; [exact H7 | split; [exact Hw | exact Hok]].
Defined.

(** The effect of one [RUnlock] on any 32-bit word. *)
Lemma RUnlock_effect (s : Z) (Hs : Int.is_uint32 s) :
  let r := run RWMutex.RUnlock s in
  word_of r = Int.uint32 (s - rwmutexReadOffset)
  /\ trace_of r = [EvAdd rwmutexReaderDecrease (word_of r)]
  /\ write_flag (word_of r) = write_flag s
  /\ reader_count (word_of r) = (reader_count s - 1) mod 2 ^ 31
  /\ ok_of r = (if reader_count s =? 0 then Panics msg_runlock else Returns tt)
  /\ reader_count_underflowed (word_of r) = (reader_count s =? 0)
  /\ (1 <= reader_count s ->
      ok_of r = Returns tt
      /\ word_of r = s - rwmutexReadOffset
      /\ reader_count (word_of r) = reader_count s - 1).
Proof.
  cbv zeta. rewrite run_RUnlock. cbv zeta. unfold word_of, trace_of, ok_of.
  cbn [fst snd]. rewrite add_ReaderDecrease.
  rewrite (underflow_test _ (uint32_range _)), (underflowed_sub_offset s Hs).
  repeat split.
  - apply write_flag_sub_offset.
  - apply reader_count_sub_offset, Hs.
  - destruct (Z.eqb_spec (reader_count s) 0); [lia | reflexivity].
  - revert H. rewrite reader_count_div, rwmutexReadOffset_val.
    unfold Int.uint32, Int.is_uint32 in *. change (2 ^ 32) with 4294967296 in *.
    intros H. apply Z.mod_small. Z.div_mod_to_equations; lia.
  - revert H. rewrite !reader_count_div, rwmutexReadOffset_val.
    unfold Int.uint32, Int.is_uint32 in *. change (2 ^ 32) with 4294967296 in *.
    intros H. Z.div_mod_to_equations; lia.
Qed.

(** C2: [RUnlock] is one atomic add of [rwmutexReaderDecrease], which
    subtracts [rwmutexReadOffset] modulo [2^32]: the write flag is kept and
    the reader count goes down by one (modulo [2^31]).  It panics exactly
    when the reader count was zero, which is exactly when the reader-count
    field of the new word has all its bits set; with at least one reader it
    returns and nothing wraps.  The reader-count field has all its bits set
    when bits 1 to 31 of the word are all one. *)
Theorem RWMutex_RUnlock_underflow (s : Z) (Hs : Int.is_uint32 s) :
  let r := run RWMutex.RUnlock s in
  word_of r = Int.uint32 (s - rwmutexReadOffset)
  /\ trace_of r = [EvAdd rwmutexReaderDecrease (word_of r)]
  /\ write_flag (word_of r) = write_flag s
  /\ reader_count (word_of r) = (reader_count s - 1) mod 2 ^ 31
  /\ ok_of r = (if reader_count s =? 0 then Panics msg_runlock else Returns tt)
  /\ reader_count_underflowed (word_of r) = (reader_count s =? 0)
  /\ (1 <= reader_count s ->
      ok_of r = Returns tt
      /\ word_of r = s - rwmutexReadOffset
      /\ reader_count (word_of r) = reader_count s - 1)
  /\ ((forall i, 1 <= i <= 31 -> Z.testbit (word_of r) i = true)
      <-> reader_count s = 0).
Proof.
  pose proof (RUnlock_effect s Hs) as H. cbv zeta in *.
  destruct H as (H1 & H2 & H3 & H4 & H5 & H6 & H7).
  refine (conj H1 (conj H2 (conj H3 (conj H4 (conj H5 (conj H6 (conj H7 _))))))).
  rewrite <- underflowed_bits by (rewrite H1; apply uint32_range).
  rewrite H6. apply Z.eqb_eq.
Qed.

Lemma RWMutex_RUnlock_underflow_witness :
  Int.is_uint32 6 /\ 1 <= reader_count 6
  /\ ok_of (run RWMutex.RUnlock 6) = Returns tt
  /\ word_of (run RWMutex.RUnlock 6) = 6 - rwmutexReadOffset
  /\ reader_count (word_of (run RWMutex.RUnlock 6)) = reader_count 6 - 1.
Proof.
  assert (H6 : Int.is_uint32 6) by (unfold Int.is_uint32; lia).
  assert (R6 : 1 <= reader_count 6) by (vm_compute; discriminate).
  split; [exact H6 | split; [exact R6 |]].
  apply (RWMutex_RUnlock_underflow 6 H6). exact R6.
Defined.

(** The effect of one write [Unlock] on any 32-bit word. *)
Lemma Unlock_effect (s : Z) (Hs : Int.is_uint32 s) :
  let r := run RWMutex.Unlock s in
  trace_of r = [EvAdd rwmutexWriterUnset (word_of r)]
  /\ word_of r = Int.uint32 (s - rwmutexWrite)
  /\ ok_of r = (if write_flag s then Returns tt else Panics msg_unlock)
  /\ (write_flag s = true ->
      write_flag (word_of r) = false
      /\ reader_count (word_of r) = reader_count s
      /\ word_of r = s - rwmutexWrite)
  /\ run RWMutex.Unlock rwmutexWrite
     = (Returns tt, rwmutexUnlocked, [EvAdd rwmutexWriterUnset rwmutexUnlocked]).
Proof.
  cbv zeta. rewrite run_Unlock. cbv zeta. unfold word_of, trace_of, ok_of.
  cbn [fst snd]. rewrite add_WriterUnset, land_write_pos, write_flag_sub_write.
  repeat split.
  - destruct (write_flag s); reflexivity.
  - rewrite H. reflexivity.
  - destruct (sub_write_held s Hs H) as [E1 E2]. rewrite E1. exact E2.
  - apply (sub_write_held s Hs H).
Qed.

(** C3: the write [Unlock] is one atomic add of [rwmutexWriterUnset], which
    subtracts [rwmutexWrite] modulo [2^32].  It panics exactly when the
    write flag was not set on entry.  When the flag was set, the new word
    has the flag cleared and the same reader count; from the write-locked
    word [rwmutexWrite] it returns and leaves [rwmutexUnlocked]. *)
Theorem RWMutex_Unlock_write_flag (s : Z) (Hs : Int.is_uint32 s) :
  let r := run RWMutex.Unlock s in
  trace_of r = [EvAdd rwmutexWriterUnset (word_of r)]
  /\ word_of r = Int.uint32 (s - rwmutexWrite)
  /\ ok_of r = (if write_flag s then Returns tt else Panics msg_unlock)
  /\ (write_flag s = true ->
      write_flag (word_of r) = false
      /\ reader_count (word_of r) = reader_count s
      /\ word_of r = s - rwmutexWrite)
  /\ run RWMutex.Unlock rwmutexWrite
     = (Returns tt, rwmutexUnlocked, [EvAdd rwmutexWriterUnset rwmutexUnlocked]).
Proof. exact (Unlock_effect s Hs). Qed.

Lemma RWMutex_Unlock_write_flag_witness :
  Int.is_uint32 5 /\ write_flag 5 = true
  /\ write_flag (word_of (run RWMutex.Unlock 5)) = false
  /\ reader_count (word_of (run RWMutex.Unlock 5)) = reader_count 5
  /\ word_of (run RWMutex.Unlock 5) = 5 - rwmutexWrite.
Proof.
  assert (H5 : Int.is_uint32 5) by (unfold Int.is_uint32; lia).
  split; [exact H5 | split; [reflexivity |]].
  apply (RWMutex_Unlock_write_flag 5 H5). reflexivity.
Defined.

(** C9: a panicking unlock has already updated the word and leaves it so.
    [Mutex.Unlock] panicking from a legal word leaves
    [mutexUnlocked - mutexLocked], which is -1 and none of the two legal
    values; [RUnlock] panicking leaves the word with the read offset
    subtracted, its reader-count field all ones; the write [Unlock]
    panicking leaves the word with [rwmutexWrite] subtracted, its write flag
    set. *)
Theorem panic_leaves_update_applied
  (m s1 s2 : Z) (msg1 msg2 msg3 : string)
  (Hm : m = mutexUnlocked \/ m = mutexLocked)
  (Hs1 : Int.is_uint32 s1) (Hs2 : Int.is_uint32 s2)
  (P1 : ok_of (run Mutex.Unlock m) = Panics msg1)
  (P2 : ok_of (run RWMutex.RUnlock s1) = Panics msg2)
  (P3 : ok_of (run RWMutex.Unlock s2) = Panics msg3) :
  (word_of (run Mutex.Unlock m) = mutexUnlocked - mutexLocked
   /\ word_of (run Mutex.Unlock m) = -1
   /\ word_of (run Mutex.Unlock m) <> mutexUnlocked
   /\ word_of (run Mutex.Unlock m) <> mutexLocked
   /\ trace_of (run Mutex.Unlock m) = [EvAdd (- mutexLocked) (-1)])
  /\ (word_of (run RWMutex.RUnlock s1) = Int.uint32 (s1 - rwmutexReadOffset)
      /\ reader_count_underflowed (word_of (run RWMutex.RUnlock s1)) = true
      /\ write_flag (word_of (run RWMutex.RUnlock s1)) = write_flag s1
      /\ trace_of (run RWMutex.RUnlock s1)
         = [EvAdd rwmutexReaderDecrease (Int.uint32 (s1 - rwmutexReadOffset))])
  /\ (word_of (run RWMutex.Unlock s2) = Int.uint32 (s2 - rwmutexWrite)
      /\ write_flag (word_of (run RWMutex.Unlock s2)) = true
      /\ trace_of (run RWMutex.Unlock s2)
         = [EvAdd rwmutexWriterUnset (Int.uint32 (s2 - rwmutexWrite))]).
Proof.
  split; [| split].
  - destruct Hm as [-> | ->].
    + repeat split; discriminate.
    + discriminate P1.
  - destruct (RUnlock_effect s1 Hs1) as (Hw & Ht & Hf & _ & Hok & Hu & _).
    rewrite P2 in Hok. rewrite Hw in Ht. repeat split; [exact Hw | | exact Hf | exact Ht].
    rewrite Hu. destruct (reader_count s1 =? 0); [reflexivity | discriminate Hok].
  - destruct (Unlock_effect s2 Hs2) as (Ht & Hw & Hok & _).
    rewrite P3 in Hok. rewrite Hw in Ht. split; [exact Hw | split; [| exact Ht]].
    rewrite Hw, write_flag_sub_write.
    destruct (write_flag s2); [discriminate Hok | reflexivity].
Qed.

Lemma panic_leaves_update_applied_witness :
  word_of (run Mutex.Unlock mutexUnlocked) = -1
  /\ reader_count_underflowed (word_of (run RWMutex.RUnlock rwmutexUnlocked)) = true
  /\ write_flag (word_of (run RWMutex.Unlock rwmutexUnlocked)) = true.
Proof.
  assert (H0 : Int.is_uint32 rwmutexUnlocked) by (unfold Int.is_uint32, rwmutexUnlocked; lia).
  pose proof (panic_leaves_update_applied mutexUnlocked rwmutexUnlocked rwmutexUnlocked
                msg_mutex msg_runlock msg_unlock
                (or_introl eq_refl) H0 H0 eq_refl eq_refl eq_refl) as H.
  split; [apply H | split; apply H].
Defined.

(** * Compare-and-swap loops *)

Lemma run_under_done {A} (o : outcome A) obs last :
  run_under (Done o) obs last = (Done o, last, []).
Proof. destruct obs; reflexivity. Qed.

Lemma yields_failed_attempts old new n tail :
  yields_after_each_failure (failed_attempts old new true n ++ tail)
  = yields_after_each_failure tail.
Proof.
  induction n as [| n IH]; [reflexivity |].
  cbn [failed_attempts app yields_after_each_failure]. exact IH.
Qed.

Section CasLoop.

Variables (L : nat -> prog unit) (old new : Z) (yield : bool).

Hypothesis L_O : L O = spin.
Hypothesis L_S : forall fuel m,
    step (L (S fuel)) m
    = Some (if m =? old then (EvCas old new true, ret tt, new)
            else (EvCas old new false, after_failure yield (L fuel), m)).

Lemma cas_loop_shift fuel p w t :
  acquires_by_cas L old new yield fuel (p, w, t) ->
  acquires_by_cas L old new yield (S fuel)
    (p, w, EvCas old new false :: (if yield then [EvGosched] else []) ++ t).
Proof.
  unfold acquires_by_cas.
  intros [(n & Hn & Ht & Hp & Hw) | [(n & Hn & Ht & Hp) | (n & Hn & Hy & Ht & Hp)]].
  - left. exists (S n). subst t. cbn [failed_attempts].
    rewrite <- app_comm_cons, <- app_assoc.
    repeat split; [lia | assumption | assumption].
  - right; left. exists (S n). subst t. cbn [failed_attempts].
    repeat split; [lia | exact Hp].
  - right; right. exists (S n). subst t. cbn [failed_attempts].
    rewrite <- app_comm_cons, <- app_assoc.
    repeat split; [lia | assumption | exact Hp].
Qed.

Lemma cas_loop_run fuel :
  forall obs last, acquires_by_cas L old new yield fuel (run_under (L fuel) obs last).
Proof.
  induction fuel as [| fuel IH]; intros obs last.
  - rewrite L_O. unfold spin. rewrite run_under_done.
    right; left. exists O. cbn [Nat.sub failed_attempts].
    split; [lia | split; [reflexivity | now rewrite L_O]].
  - destruct obs as [| m obs].
    + right; left. exists O. cbn [run_under failed_attempts Nat.sub].
      split; [lia | split; reflexivity].
    + cbn [run_under]. rewrite L_S.
      destruct (m =? old).
      * unfold ret. rewrite run_under_done.
        left. exists O. cbn [failed_attempts app].
        split; [lia | repeat split].
      * destruct (Bool.bool_dec yield true) as [Hy | Hy].
        -- replace (after_failure yield (L fuel)) with (Yield (L fuel))
             by (rewrite Hy; reflexivity).
           destruct obs as [| m2 obs].
           ++ right; right. exists O. cbn [run_under failed_attempts app Nat.sub].
              rewrite Nat.sub_0_r.
              split; [lia | repeat split; exact Hy].
           ++ cbn [run_under step].
              specialize (IH obs m2). destruct (run_under (L fuel) obs m2) as [[p w] t].
              apply cas_loop_shift in IH.
              replace (EvCas old new false :: EvGosched :: t)
                with (EvCas old new false :: (if yield then [EvGosched] else []) ++ t)
                by (rewrite Hy; reflexivity).
              exact IH.
        -- apply Bool.not_true_is_false in Hy.
           replace (after_failure yield (L fuel)) with (L fuel)
             by (rewrite Hy; reflexivity).
           specialize (IH obs m). destruct (run_under (L fuel) obs m) as [[p w] t].
           apply cas_loop_shift in IH.
           replace (EvCas old new false :: t)
             with (EvCas old new false :: (if yield then [EvGosched] else []) ++ t)
             by (rewrite Hy; reflexivity).
           exact IH.
Qed.

(** The loop returns only through a successful compare-and-swap. *)
Lemma cas_loop_returns fuel obs last p w t :
  run_under (L fuel) obs last = (p, w, t) ->
  p = ret tt ->
  w = new /\ exists n : nat, t = failed_attempts old new yield n ++ [EvCas old new true].
Proof.
  intros Hrun Hp. pose proof (cas_loop_run fuel obs last) as H.
  rewrite Hrun in H. unfold acquires_by_cas in H.
  destruct H as [(n & _ & Ht & _ & Hw) | [(n & Hn & _ & Hq) | (n & _ & _ & _ & Hq)]].
  - split; [exact Hw | exists n; exact Ht].
  - exfalso. subst p. destruct (fuel - n)%nat as [| k] eqn:E.
    + rewrite L_O in Hq. discriminate Hq.
    + pose proof (L_S k 0) as HS. rewrite <- Hq in HS. discriminate HS.
  - exfalso. subst p. discriminate Hq.
Qed.

End CasLoop.

Lemma Mutex_Lock_step fuel m :
  step (Mutex.Lock (S fuel)) m
  = Some (if m =? mutexUnlocked then (EvCas mutexUnlocked mutexLocked true, ret tt, mutexLocked)
          else (EvCas mutexUnlocked mutexLocked false, after_failure true (Mutex.Lock fuel), m)).
Proof. cbn. destruct (m =? mutexUnlocked); reflexivity. Qed.



Lemma RWMutex_Lock_step fuel m :
  step (RWMutex.Lock (S fuel)) m
  = Some (if m =? rwmutexUnlocked then (EvCas rwmutexUnlocked rwmutexWrite true, ret tt, rwmutexWrite)
          else (EvCas rwmutexUnlocked rwmutexWrite false, after_failure true (RWMutex.Lock fuel), m)).
Proof. cbn. destruct (m =? rwmutexUnlocked); reflexivity. Qed.

Lemma yields_of_acquires L old new fuel p w t :
  acquires_by_cas L old new true fuel (p, w, t) ->
  yields_after_each_failure t = true.
Proof.
  unfold acquires_by_cas.
  intros [(n & _ & Ht & _) | [(n & _ & Ht & _) | (n & _ & _ & Ht & _)]];
    subst t; [| rewrite <- (app_nil_r (failed_attempts _ _ _ _)) |];
    rewrite yields_failed_attempts; reflexivity.
Qed.

(** * Acquiring *)

(** C6: [Mutex.Lock] is a loop of compare-and-swap attempts from
    [mutexUnlocked] to [mutexLocked].  Whatever the other goroutines do to
    the word, its events are failed attempts, each followed by a call to
    [runtime.Gosched] before the next attempt, and, when it has returned,
    one successful attempt after them that left the word [mutexLocked]: it
    returns in no other way.  On an unlocked mutex it succeeds at the first
    attempt. *)
Theorem Mutex_Lock_spins_until_cas (fuel : nat) (obs : list Z) (last : Z) :
  let r := run_under (Mutex.Lock fuel) obs last in
  acquires_by_cas Mutex.Lock mutexUnlocked mutexLocked true fuel r
  /\ yields_after_each_failure (snd r) = true
  /\ (fst (fst r) = ret tt ->
      snd (fst r) = mutexLocked
      /\ exists n : nat,
          snd r = failed_attempts mutexUnlocked mutexLocked true n
                    ++ [EvCas mutexUnlocked mutexLocked true])
  /\ run (Mutex.Lock (S fuel)) mutexUnlocked
     = (Returns tt, mutexLocked, [EvCas mutexUnlocked mutexLocked true]).
Proof.
  cbv zeta.
  pose proof (cas_loop_run Mutex.Lock mutexUnlocked mutexLocked true
                eq_refl Mutex_Lock_step fuel obs last) as H1.
  pose proof (cas_loop_returns Mutex.Lock mutexUnlocked mutexLocked true
                eq_refl Mutex_Lock_step fuel obs last) as R1.
  destruct (run_under (Mutex.Lock fuel) obs last) as [[p1 w1] t1].
  cbn [fst snd].
  split; [exact H1 | split; [exact (yields_of_acquires _ _ _ _ _ _ _ H1) | split]].
  - intros Hp. exact (R1 p1 w1 t1 eq_refl Hp).
  - reflexivity.
Qed.

Lemma Mutex_Lock_spins_until_cas_witness :
  fst (fst (run_under (Mutex.Lock 3) [mutexLocked; mutexLocked; mutexUnlocked] mutexLocked))
  = ret tt
  /\ snd (fst (run_under (Mutex.Lock 3) [mutexLocked; mutexLocked; mutexUnlocked] mutexLocked))
     = mutexLocked
  /\ exists n : nat,
      snd (run_under (Mutex.Lock 3) [mutexLocked; mutexLocked; mutexUnlocked] mutexLocked)
      = failed_attempts mutexUnlocked mutexLocked true n
          ++ [EvCas mutexUnlocked mutexLocked true].
Proof.
  split; [reflexivity |].
  apply (Mutex_Lock_spins_until_cas 3 [mutexLocked; mutexLocked; mutexUnlocked] mutexLocked).
  reflexivity.
Defined.

(** C4: the write [TryLock] is exactly one compare-and-swap from
    [rwmutexUnlocked] to [rwmutexWrite] (write flag set, no reader); it
    returns whether the swap took place, which is exactly when the word had
    no reader and no writer, and leaves the word as it was otherwise; with
    a reader it returns false.  The write [Lock] is a loop of the same
    compare-and-swap and returns only through a successful one. *)
Theorem RWMutex_write_lock_by_cas (s : Z) (fuel : nat) (obs : list Z) (last : Z) :
  let r := run_under (RWMutex.Lock fuel) obs last in
  run RWMutex.TryLock s
  = (Returns (s =? rwmutexUnlocked),
     (if s =? rwmutexUnlocked then rwmutexWrite else s),
     [EvCas rwmutexUnlocked rwmutexWrite (s =? rwmutexUnlocked)])
  /\ (s =? rwmutexUnlocked) = (reader_count s =? 0) && negb (write_flag s)
  /\ write_flag rwmutexWrite = true
  /\ reader_count rwmutexWrite = 0
  /\ (1 <= reader_count s ->
      run RWMutex.TryLock s
      = (Returns false, s, [EvCas rwmutexUnlocked rwmutexWrite false]))
  /\ acquires_by_cas RWMutex.Lock rwmutexUnlocked rwmutexWrite true fuel r
  /\ (fst (fst r) = ret tt ->
      snd (fst r) = rwmutexWrite
      /\ exists n : nat,
          snd r = failed_attempts rwmutexUnlocked rwmutexWrite true n
                    ++ [EvCas rwmutexUnlocked rwmutexWrite true])
  /\ run (RWMutex.Lock (S fuel)) rwmutexUnlocked
     = (Returns tt, rwmutexWrite, [EvCas rwmutexUnlocked rwmutexWrite true]).
Proof.
  cbv zeta.
  split; [apply run_TryLock |].
  split; [apply unlocked_iff |].
  split; [reflexivity |].
  split; [reflexivity |].
  split.
  - intros Hr. rewrite run_TryLock.
    assert (E : (s =? rwmutexUnlocked) = false).
    { rewrite unlocked_iff. destruct (Z.eqb_spec (reader_count s) 0); [lia | reflexivity]. }
    rewrite E. reflexivity.
  - pose proof (cas_loop_run RWMutex.Lock rwmutexUnlocked rwmutexWrite true
                  eq_refl RWMutex_Lock_step fuel obs last) as H1.
    pose proof (cas_loop_returns RWMutex.Lock rwmutexUnlocked rwmutexWrite true
                  eq_refl RWMutex_Lock_step fuel obs last) as R1.
    destruct (run_under (RWMutex.Lock fuel) obs last) as [[p1 w1] t1].
    cbn [fst snd].
    split; [exact H1 | split; [| reflexivity]].
    intros Hp. exact (R1 p1 w1 t1 eq_refl Hp).
Qed.

Lemma RWMutex_write_lock_by_cas_witness :
  1 <= reader_count 4
  /\ run RWMutex.TryLock 4 = (Returns false, 4, [EvCas rwmutexUnlocked rwmutexWrite false])
  /\ fst (fst (run_under (RWMutex.Lock 2) [4; 2; 0] 4)) = ret tt
  /\ snd (fst (run_under (RWMutex.Lock 2) [4; 2; 0] 4)) = rwmutexWrite.
Proof.
  assert (R4 : 1 <= reader_count 4) by (vm_compute; discriminate).
  pose proof (RWMutex_write_lock_by_cas 4 2 [4; 2; 0] 4) as H. cbv zeta in H.
  destruct H as (_ & _ & _ & _ & Htry & _ & Hret & _).
  split; [exact R4 | split; [exact (Htry R4) | split; [reflexivity |]]].
  apply Hret. reflexivity.
Defined.

(** C5: [TryRLock] adds [rwmutexReadOffset] (reader count up by one, write
    flag untouched) and returns true exactly when the write flag is not set
    in the new word; otherwise a second atomic add, of
    [rwmutexReaderDecrease], takes the offset off again and it returns
    false, the word being what it was before the call.  Among other
    goroutines the second add acts on whatever the word holds by then. *)
Theorem RWMutex_TryRLock_undo (s : Z) (Hs : Int.is_uint32 s) (m1 m2 last : Z) :
  let s1 := Int.uint32 (s + rwmutexReadOffset) in
  run RWMutex.TryRLock s
  = (if write_flag s1
     then (Returns false, s,
           [EvAdd rwmutexReadOffset s1; EvAdd rwmutexReaderDecrease s])
     else (Returns true, s1, [EvAdd rwmutexReadOffset s1]))
  /\ write_flag s1 = write_flag s
  /\ reader_count s1 = (reader_count s + 1) mod 2 ^ 31
  /\ run_under RWMutex.TryRLock [m1; m2] last
     = (if write_flag m1
        then (ret false, Int.uint32 (m2 - rwmutexReadOffset),
              [EvAdd rwmutexReadOffset (Int.uint32 (m1 + rwmutexReadOffset));
               EvAdd rwmutexReaderDecrease (Int.uint32 (m2 - rwmutexReadOffset))])
        else (ret true, Int.uint32 (m1 + rwmutexReadOffset),
              [EvAdd rwmutexReadOffset (Int.uint32 (m1 + rwmutexReadOffset))])).
Proof.
  cbv zeta. split; [| split; [| split]].
  - rewrite run_TryRLock. cbv zeta.
    rewrite land_write_flag, (add_then_decrease s Hs).
    destruct (write_flag (Int.uint32 (s + rwmutexReadOffset))); reflexivity.
  - apply write_flag_add_offset.
  - apply reader_count_add_offset, Hs.
  - unfold_calls. rewrite land_write_flag, write_flag_add_offset.
    destruct (write_flag m1); cbn [negb bind step run_under].
    + rewrite add_ReaderDecrease. reflexivity.
    + reflexivity.
Qed.

Lemma RWMutex_TryRLock_undo_witness :
  Int.is_uint32 7
  /\ run RWMutex.TryRLock 7
     = (Returns false, 7, [EvAdd rwmutexReadOffset 9; EvAdd rwmutexReaderDecrease 7]).
Proof.
  assert (H7 : Int.is_uint32 7) by (unfold Int.is_uint32; lia).
  split; [exact H7 |].
  exact (proj1 (RWMutex_TryRLock_undo 7 H7 0 0 0)).
Defined.

(** C8: the zero value of either lock is an unlocked lock: on a zero word
    [Mutex.TryLock] succeeds, and so do the write [TryLock] and [TryRLock]
    of [RWMutex]; the blocking calls return at their first step. *)
Theorem zero_value_is_unlocked (fuel : nat) :
  run Mutex.TryLock 0
  = (Returns true, mutexLocked, [EvCas mutexUnlocked mutexLocked true])
  /\ run RWMutex.TryLock 0
     = (Returns true, rwmutexWrite, [EvCas rwmutexUnlocked rwmutexWrite true])
  /\ run RWMutex.TryRLock 0
     = (Returns true, rwmutexReadOffset, [EvAdd rwmutexReadOffset rwmutexReadOffset])
  /\ run (Mutex.Lock (S fuel)) 0
     = (Returns tt, mutexLocked, [EvCas mutexUnlocked mutexLocked true])
  /\ run (RWMutex.Lock (S fuel)) 0
     = (Returns tt, rwmutexWrite, [EvCas rwmutexUnlocked rwmutexWrite true])
  /\ run (RWMutex.RLock fuel) 0
     = (Returns tt, rwmutexReadOffset, [EvAdd rwmutexReadOffset rwmutexReadOffset])
  /\ mutexUnlocked = 0 /\ rwmutexUnlocked = 0.
Proof. repeat split; reflexivity. Qed.

(** C10: with no reader, [RUnlock] panics whether or not a writer holds the
    lock: from the write-locked word [rwmutexWrite], as from the unlocked
    word, the add leaves a word whose reader-count field is all ones. *)
Theorem RUnlock_without_reader_panics :
  run RWMutex.RUnlock rwmutexWrite
  = (Panics msg_runlock, 2 ^ 32 - 1, [EvAdd rwmutexReaderDecrease (2 ^ 32 - 1)])
  /\ reader_count_underflowed (2 ^ 32 - 1) = true
  /\ run RWMutex.RUnlock rwmutexUnlocked
     = (Panics msg_runlock, 2 ^ 32 - 2, [EvAdd rwmutexReaderDecrease (2 ^ 32 - 2)])
  /\ reader_count_underflowed (2 ^ 32 - 2) = true
  /\ reader_count rwmutexWrite = 0 /\ write_flag rwmutexWrite = true.
Proof. repeat split; reflexivity. Qed.

(** * Readers coming and going *)

Lemma run_bind {A B} (p : prog A) (f : A -> prog B) :
  forall m,
    run (bind p f) m
    = let '(o, m', t) := run p m in
      match o with
      | Returns a => let '(o2, m2, t2) := run (f a) m' in (o2, m2, t ++ t2)
      | Panics msg => (Panics msg, m', t)
      | Spins => (Spins, m', t)
      end.
Proof.
  induction p as [o | w old new k IH | w delta k IH | w k IH | k IH]; intros m.
  - destruct o as [a | msg |]; cbn [bind run].
    + destruct (run (f a) m) as [[o2 m2] t2]. reflexivity.
    + reflexivity.
    + reflexivity.
  - cbn [bind run]. destruct (m =? old).
    + rewrite IH. destruct (run (k true) new) as [[o m'] t].
      destruct o as [a | msg |]; [destruct (run (f a) m') as [[o2 m2] t2] | |]; reflexivity.
    + rewrite IH. destruct (run (k false) m) as [[o m'] t].
      destruct o as [a | msg |]; [destruct (run (f a) m') as [[o2 m2] t2] | |]; reflexivity.
  - cbn [bind run]. cbv zeta. rewrite IH.
    destruct (run (k (Int.wrap w (m + delta))) (Int.wrap w (m + delta))) as [[o m'] t].
    destruct o as [a | msg |]; [destruct (run (f a) m') as [[o2 m2] t2] | |]; reflexivity.
  - cbn [bind run]. rewrite IH. destruct (run (k m) m) as [[o m'] t].
    destruct o as [a | msg |]; [destruct (run (f a) m') as [[o2 m2] t2] | |]; reflexivity.
  - cbn [bind run]. rewrite IH. destruct (run k m) as [[o m'] t].
    destruct o as [a | msg |]; [destruct (run (f a) m') as [[o2 m2] t2] | |]; reflexivity.
Qed.

(** With the write flag clear, [RLock] is its one atomic add. *)
Lemma step_calls_RLock fuel cs m :
  write_flag m = false ->
  step (calls fuel (CallRLock :: cs)) m
  = Some (EvAdd rwmutexReadOffset (Int.uint32 (m + rwmutexReadOffset)),
          calls fuel cs, Int.uint32 (m + rwmutexReadOffset)).
Proof.
  intros Hf. cbn [calls rcall_prog]. unfold_calls.
  rewrite land_write_flag, write_flag_add_offset, Hf. reflexivity.
Qed.

Lemma step_calls_RUnlock fuel cs m :
  exists p,
    step (calls fuel (CallRUnlock :: cs)) m
    = Some (EvAdd rwmutexReaderDecrease (Int.uint32 (m - rwmutexReadOffset)),
            p, Int.uint32 (m - rwmutexReadOffset))
    /\ tracks fuel p cs.
Proof.
  cbn [calls rcall_prog]. unfold_calls. rewrite add_ReaderDecrease.
  destruct (Z.land (Int.uint32 (m - rwmutexReadOffset)) rwmutexUnderflow =? rwmutexUnderflow).
  - eexists. split; [reflexivity |]. right. eexists. reflexivity.
  - eexists. split; [reflexivity |]. left. reflexivity.
Qed.

Lemma calls_returned fuel cs : calls fuel cs = ret tt -> cs = [].
Proof.
  destruct cs as [| [|] cs]; [reflexivity | |]; intros H; discriminate H.
Qed.

Lemma Forall2_nth_error_l {A B} (R : A -> B -> Prop) l1 l2 :
  Forall2 R l1 l2 ->
  forall i x, nth_error l1 i = Some x ->
              exists y, nth_error l2 i = Some y /\ R x y.
Proof.
  induction 1 as [| a b l1 l2 Hab _ IH]; intros i x Hi.
  - destruct i; discriminate Hi.
  - destruct i as [| i].
    + injection Hi as <-. exists b. split; [reflexivity | exact Hab].
    + exact (IH i x Hi).
Qed.

Lemma Forall2_set_nth {A B} (R : A -> B -> Prop) l1 l2 x y :
  Forall2 R l1 l2 -> R x y ->
  forall i, Forall2 R (set_nth i x l1) (set_nth i y l2).
Proof.
  intros H Hxy. induction H as [| a b l1 l2 Hab H IH]; intros i.
  - destruct i; constructor.
  - destruct i as [| i]; cbn [set_nth]; constructor; auto.
Qed.

Lemma total_balance_set_nth css :
  forall i cs cs',
    nth_error css i = Some cs ->
    total_balance (set_nth i cs' css) = total_balance css - balance cs + balance cs'.
Proof.
  induction css as [| c css IH]; intros i cs cs' Hi.
  - destruct i; discriminate Hi.
  - destruct i as [| i]; cbn [set_nth total_balance].
    + injection Hi as <-. lia.
    + cbn [nth_error] in Hi. rewrite (IH i cs cs' Hi). lia.
Qed.

Lemma write_flag_even k : write_flag (Int.uint32 (2 * k)) = false.
Proof.
  rewrite write_flag_odd. unfold Int.uint32.
  pose proof (odd_mod2 ((2 * k) mod 2 ^ 32)) as H.
  change (2 ^ 32) with 4294967296 in *. revert H.
  destruct (Z.odd ((2 * k) mod 4294967296)); intros H; [exfalso | reflexivity].
  Z.div_mod_to_equations; lia.
Qed.

Lemma uint32_even_add k :
  Int.uint32 (Int.uint32 (2 * k) + rwmutexReadOffset) = Int.uint32 (2 * (k + 1)).
Proof.
  unfold Int.uint32. rewrite Zplus_mod_idemp_l, rwmutexReadOffset_val.
  f_equal. lia.
Qed.

Lemma uint32_even_sub k :
  Int.uint32 (Int.uint32 (2 * k) - rwmutexReadOffset) = Int.uint32 (2 * (k - 1)).
Proof.
  unfold Int.uint32. rewrite Zminus_mod_idemp_l, rwmutexReadOffset_val.
  f_equal. lia.
Qed.

Section Pool.

Variables (fuel : nat) (total : Z).

Lemma sched_step_inv i ps css m :
  pool_inv fuel total ps css m ->
  exists css', pool_inv fuel total (fst (sched_step i ps m)) css' (snd (sched_step i ps m)).
Proof.
  intros [HF Hm]. unfold sched_step.
  destruct (nth_error ps i) as [p |] eqn:Hp; [| exists css; split; assumption].
  destruct (Forall2_nth_error_l _ _ _ HF i p Hp) as (cs & Hcs & [Hpc | [msg Hpc]]).
  - destruct cs as [| [|] cs]; subst p.
    + exists css. split; assumption.
    + rewrite step_calls_RLock by (rewrite Hm; apply write_flag_even).
      exists (set_nth i cs css). cbn [fst snd]. split.
      * apply Forall2_set_nth; [exact HF | left; reflexivity].
      * rewrite (total_balance_set_nth css i _ cs Hcs), Hm, uint32_even_add.
        cbn [balance]. f_equal. lia.
    + destruct (step_calls_RUnlock fuel cs m) as (p' & Hstep & Htr).
      rewrite Hstep. exists (set_nth i cs css). cbn [fst snd]. split.
      * apply Forall2_set_nth; [exact HF | exact Htr].
      * rewrite (total_balance_set_nth css i _ cs Hcs), Hm, uint32_even_sub.
        cbn [balance]. f_equal. lia.
  - subst p. exists css. split; assumption.
Qed.

Lemma interleave_inv sched :
  forall ps css m,
    pool_inv fuel total ps css m ->
    exists css', pool_inv fuel total (fst (interleave sched ps m)) css' (snd (interleave sched ps m)).
Proof.
  induction sched as [| i sched IH]; intros ps css m H.
  - exists css. exact H.
  - cbn [interleave].
    destruct (sched_step_inv i ps css m H) as [css1 H1].
    destruct (sched_step i ps m) as [ps1 m1]. cbn [fst snd] in H1.
    exact (IH ps1 css1 m1 H1).
Qed.

Lemma all_returned_balance ps css :
  Forall2 (tracks fuel) ps css -> Forall returned ps -> total_balance css = 0.
Proof.
  induction 1 as [| p cs ps css Hp _ IH]; intros Hall; [reflexivity |].
  inversion Hall as [| ? ? Hr Hrest]; subst.
  cbn [total_balance]. rewrite (IH Hrest).
  unfold returned in Hr. destruct Hp as [Hp | [msg Hp]].
  - rewrite Hr in Hp. symmetry in Hp. apply calls_returned in Hp. now subst cs.
  - rewrite Hr in Hp. discriminate Hp.
Qed.

End Pool.

Lemma pool_inv_init fuel css :
  pool_inv fuel (total_balance css) (map (calls fuel) css) css rwmutexUnlocked.
Proof.
  split.
  - induction css as [| cs css IH]; cbn [map]; constructor; [left; reflexivity | exact IH].
  - rewrite Z.sub_diag. reflexivity.
Qed.

(** With the write flag clear, a call to [RLock] returns at once. *)
Lemma run_RLock_free fuel m :
  write_flag m = false ->
  run (RWMutex.RLock fuel) m
  = (Returns tt, Int.uint32 (m + rwmutexReadOffset),
     [EvAdd rwmutexReadOffset (Int.uint32 (m + rwmutexReadOffset))]).
Proof.
  intros Hf. unfold_calls.
  rewrite land_write_flag, write_flag_add_offset, Hf. reflexivity.
Qed.

(** Matched calls made one after the other all return, and the word is
    twice the number of read locks outstanding. *)
Lemma matched_calls_return fuel cs :
  forall held,
    0 <= held < 2 ^ 31 ->
    matched held cs = true ->
    ok_of (run (calls fuel cs) (2 * held)) = Returns tt
    /\ word_of (run (calls fuel cs) (2 * held)) = 2 * (held + balance cs).
Proof.
  induction cs as [| c cs IH]; intros held Hh Hm.
  - unfold ok_of, word_of. cbn [calls ret run fst snd balance].
    split; [reflexivity | lia].
  - cbn [calls]. rewrite run_bind.
    destruct c; cbn [matched rcall_prog balance] in *;
      apply andb_prop in Hm; destruct Hm as [Hb Hm].
    + apply Z.ltb_lt in Hb.
      rewrite run_RLock_free
        by (rewrite <- (uint32_small (2 * held)) by (unfold Int.is_uint32; lia);
            apply write_flag_even).
      rewrite uint32_small, rwmutexReadOffset_val
        by (rewrite rwmutexReadOffset_val; unfold Int.is_uint32; lia).
      replace (2 * held + 2) with (2 * (held + 1)) by lia.
      destruct (IH (held + 1) ltac:(lia) Hm) as [Hok Hw].
      destruct (run (calls fuel cs) (2 * (held + 1))) as [[o w] t].
      unfold ok_of, word_of in *. cbn [fst snd] in *. split; [exact Hok | lia].
    + apply Z.ltb_lt in Hb.
      assert (Hs : Int.is_uint32 (2 * held)) by (unfold Int.is_uint32; lia).
      assert (Hr : 1 <= reader_count (2 * held)).
      { rewrite reader_count_div. Z.div_mod_to_equations; lia. }
      destruct (RUnlock_effect (2 * held) Hs) as (_ & _ & _ & _ & _ & _ & H).
      destruct (H Hr) as (Hok1 & Hw1 & _).
      destruct (run RWMutex.RUnlock (2 * held)) as [[o1 w1] t1].
      unfold ok_of, word_of in Hok1, Hw1. cbn [fst snd] in Hok1, Hw1. subst o1 w1.
      rewrite rwmutexReadOffset_val.
      replace (2 * held - 2) with (2 * (held - 1)) by lia.
      destruct (IH (held - 1) ltac:(lia) Hm) as [Hok Hw].
      destruct (run (calls fuel cs) (2 * (held - 1))) as [[o w] t].
      unfold ok_of, word_of in *. cbn [fst snd] in *. split; [exact Hok | lia].
Qed.

(** * Readers that match their own calls never panic *)

Lemma nth_error_set_nth_eq {A} (l : list A) :
  forall i x y, nth_error l i = Some y -> nth_error (set_nth i x l) i = Some x.
Proof.
  induction l as [| a l IH]; intros i x y Hi.
  - destruct i; discriminate Hi.
  - destruct i as [| i]; [reflexivity |]. exact (IH i x y Hi).
Qed.

Lemma nth_error_set_nth_neq {A} (l : list A) :
  forall i j x, i <> j -> nth_error (set_nth i x l) j = nth_error l j.
Proof.
  induction l as [| a l IH]; intros i j x Hij.
  - destruct i; reflexivity.
  - destruct i as [| i], j as [| j]; try reflexivity.
    + contradiction Hij. reflexivity.
    + cbn [set_nth nth_error]. apply IH. intros ->. apply Hij. reflexivity.
Qed.

Lemma Forall2_nth_error_none {A B} (R : A -> B -> Prop) l1 l2 :
  Forall2 R l1 l2 ->
  forall i, nth_error l1 i = None -> nth_error l2 i = None.
Proof.
  induction 1 as [| a b l1 l2 _ _ IH]; intros i Hi.
  - destruct i; reflexivity.
  - destruct i as [| i]; [discriminate Hi | exact (IH i Hi)].
Qed.

Lemma Forall_set_nth {A} (P : A -> Prop) l x :
  Forall P l -> P x -> forall i, Forall P (set_nth i x l).
Proof.
  intros H Hx. induction H as [| a l Ha H IH]; intros i.
  - destruct i; constructor.
  - destruct i as [| i]; cbn [set_nth]; constructor; auto.
Qed.

Lemma zsum_set_nth {A} (f : A -> Z) (l : list A) :
  forall i x y,
    nth_error l i = Some y ->
    zsum (map f (set_nth i x l)) = zsum (map f l) - f y + f x.
Proof.
  induction l as [| a l IH]; intros i x y Hi.
  - destruct i; discriminate Hi.
  - destruct i as [| i]; cbn [set_nth map zsum].
    + injection Hi as <-. lia.
    + cbn [nth_error] in Hi. rewrite (IH i x y Hi). lia.
Qed.

Lemma zsum_nth_le {A} (f : A -> Z) (l : list A) :
  Forall (fun a => 0 <= f a) l ->
  forall i y, nth_error l i = Some y -> f y <= zsum (map f l).
Proof.
  induction 1 as [| a l Ha H IH]; intros i y Hi.
  - destruct i; discriminate Hi.
  - assert (Hl : 0 <= zsum (map f l)).
    { clear IH Hi. induction H as [| b l Hb _ IHl]; cbn [map zsum]; lia. }
    destruct i as [| i]; cbn [map zsum].
    + injection Hi as <-. lia.
    + cbn [nth_error] in Hi. specialize (IH i y Hi). lia.
Qed.

Lemma rlocks_nonneg cs : 0 <= rlocks cs.
Proof. induction cs as [| [|] cs IH]; cbn [rlocks]; lia. Qed.

(** With a reader holding the lock, [RUnlock] is its one atomic add and
    returns. *)
Lemma step_calls_RUnlock_held fuel cs m :
  Int.is_uint32 m -> 1 <= reader_count m ->
  step (calls fuel (CallRUnlock :: cs)) m
  = Some (EvAdd rwmutexReaderDecrease (m - rwmutexReadOffset),
          calls fuel cs, m - rwmutexReadOffset).
Proof.
  intros Hm Hr. cbn [calls rcall_prog]. unfold_calls.
  rewrite add_ReaderDecrease.
  rewrite (underflow_test _ (uint32_range _)), (underflowed_sub_offset m Hm).
  assert (E : Int.uint32 (m - rwmutexReadOffset) = m - rwmutexReadOffset).
  { revert Hr. rewrite reader_count_div, rwmutexReadOffset_val.
    unfold Int.uint32, Int.is_uint32 in *. change (2 ^ 32) with 4294967296 in *.
    intros Hr. apply Z.mod_small. Z.div_mod_to_equations; lia. }
  rewrite E.
  destruct (Z.eqb_spec (reader_count m) 0) as [E0 | _]; [lia | reflexivity].
Qed.

Section Readers.

Variables (fuel : nat) (bound : Z).
Hypothesis bound_fits : bound < 2 ^ 31.

Lemma sched_step_readers i ps gs m :
  readers_inv fuel bound ps gs m ->
  exists gs',
    readers_inv fuel bound (fst (sched_step i ps m)) gs' (snd (sched_step i ps m))
    /\ forall j, remaining gs' j
                 = (remaining gs j - (if Nat.eq_dec i j then 1 else 0))%nat.
Proof.
  intros (HF & Hpos & Hm & Hb). unfold sched_step.
  assert (Hsame : forall j, remaining gs j
                            = (remaining gs j - (if Nat.eq_dec i j then 1 else 0))%nat
                            \/ i = j).
  { intros j. destruct (Nat.eq_dec i j); [right; assumption | left; lia]. }
  destruct (nth_error ps i) as [p |] eqn:Hp.
  - destruct (Forall2_nth_error_l _ _ _ HF i p Hp) as ([h cs] & Hg & Hpc & Hmt).
    cbn [held todo fst snd] in Hpc, Hmt.
    assert (Hh : 0 <= h) by (exact (proj1 (Forall_forall _ _) Hpos (h, cs) (nth_error_In _ _ Hg))).
    pose proof (zsum_nth_le held gs Hpos i (h, cs) Hg) as Hle. cbn [held fst] in Hle.
    assert (Hrl : rlocks cs <= zsum (map (fun g => rlocks (todo g)) gs)).
    { apply (zsum_nth_le (fun g => rlocks (todo g)) gs) with (i := i) (y := (h, cs)).
      - apply Forall_forall. intros g _. apply rlocks_nonneg.
      - exact Hg. }
    assert (Hsum : 0 <= zsum (map held gs)) by lia.
    destruct cs as [| [|] cs]; subst p.
    + (* nothing left to do *)
      exists gs. split; [repeat split; assumption |].
      intros j. destruct (Hsame j) as [E | <-]; [exact E |].
      unfold remaining. rewrite Hg. reflexivity.
    + (* RLock *)
      cbn [matched rlocks] in Hmt, Hrl. apply andb_prop in Hmt. destruct Hmt as [_ Hmt].
      pose proof (rlocks_nonneg cs) as Hcs.
      rewrite step_calls_RLock
        by (rewrite Hm, <- (uint32_small (2 * _)) by (unfold Int.is_uint32; lia);
            apply write_flag_even).
      exists (set_nth i (h + 1, cs) gs). cbn [fst snd]. split.
      * repeat split.
        -- apply Forall2_set_nth; [exact HF | split; [reflexivity | exact Hmt]].
        -- apply Forall_set_nth; [exact Hpos | cbn; lia].
        -- rewrite (zsum_set_nth held gs i _ _ Hg). cbn [held fst].
           rewrite Hm, rwmutexReadOffset_val. rewrite uint32_small
             by (unfold Int.is_uint32; lia). lia.
        -- rewrite (zsum_set_nth held gs i _ _ Hg).
           rewrite (zsum_set_nth (fun g => rlocks (todo g)) gs i _ _ Hg).
           cbn [held todo fst snd rlocks]. lia.
      * intros j. unfold remaining. destruct (Nat.eq_dec i j) as [<- | Hij].
        -- rewrite (nth_error_set_nth_eq gs i _ _ Hg), Hg. cbn [todo snd List.length]. lia.
        -- rewrite (nth_error_set_nth_neq gs i j _ Hij). lia.
    + (* RUnlock *)
      cbn [matched rlocks] in Hmt, Hrl. apply andb_prop in Hmt. destruct Hmt as [Hh1 Hmt].
      apply Z.ltb_lt in Hh1.
      pose proof (rlocks_nonneg cs) as Hcs.
      assert (Hmr : Int.is_uint32 m) by (rewrite Hm; unfold Int.is_uint32; lia).
      assert (Hrc : 1 <= reader_count m).
      { rewrite reader_count_div, Hm. Z.div_mod_to_equations; lia. }
      rewrite (step_calls_RUnlock_held fuel cs m Hmr Hrc).
      exists (set_nth i (h - 1, cs) gs). cbn [fst snd]. split.
      * repeat split.
        -- apply Forall2_set_nth; [exact HF | split; [reflexivity | exact Hmt]].
        -- apply Forall_set_nth; [exact Hpos | cbn; lia].
        -- rewrite (zsum_set_nth held gs i _ _ Hg). cbn [held fst].
           rewrite Hm, rwmutexReadOffset_val. lia.
        -- rewrite (zsum_set_nth held gs i _ _ Hg).
           rewrite (zsum_set_nth (fun g => rlocks (todo g)) gs i _ _ Hg).
           cbn [held todo fst snd rlocks]. lia.
      * intros j. unfold remaining. destruct (Nat.eq_dec i j) as [<- | Hij].
        -- rewrite (nth_error_set_nth_eq gs i _ _ Hg), Hg. cbn [todo snd List.length]. lia.
        -- rewrite (nth_error_set_nth_neq gs i j _ Hij). lia.
  - exists gs. split; [repeat split; assumption |].
    intros j. destruct (Hsame j) as [E | <-]; [exact E |].
    unfold remaining. rewrite (Forall2_nth_error_none _ _ _ HF i Hp). reflexivity.
Qed.

Lemma interleave_readers sched :
  forall ps gs m,
    readers_inv fuel bound ps gs m ->
    exists gs',
      readers_inv fuel bound (fst (interleave sched ps m)) gs' (snd (interleave sched ps m))
      /\ forall j, remaining gs' j
                   = (remaining gs j - count_occ Nat.eq_dec sched j)%nat.
Proof.
  induction sched as [| i sched IH]; intros ps gs m H.
  - exists gs. split; [exact H |]. intros j. cbn [count_occ]. lia.
  - cbn [interleave].
    destruct (sched_step_readers i ps gs m H) as (gs1 & H1 & R1).
    destruct (sched_step i ps m) as [ps1 m1]. cbn [fst snd] in H1.
    destruct (IH ps1 gs1 m1 H1) as (gs' & H' & R').
    exists gs'. split; [exact H' |].
    intros j. rewrite R', R1. cbn [count_occ].
    destruct (Nat.eq_dec i j); lia.
Qed.

End Readers.

Lemma nothing_remaining (gs : list reader) :
  (forall j, remaining gs j = 0%nat) -> Forall (fun g => todo g = []) gs.
Proof.
  induction gs as [| g gs IH]; intros H; constructor.
  - specialize (H 0%nat). unfold remaining in H. cbn [nth_error] in H.
    destruct (todo g); [reflexivity | discriminate H].
  - apply IH. intros j. exact (H (S j)).
Qed.

Lemma readers_all_returned fuel bound ps gs m :
  readers_inv fuel bound ps gs m ->
  Forall (fun g => todo g = []) gs ->
  Forall returned ps.
Proof.
  intros (HF & _) Hall. induction HF as [| p g ps gs [Hp _] _ IH]; constructor.
  - inversion Hall as [| ? ? Hg _]; subst. unfold returned. rewrite Hg. reflexivity.
  - apply IH. inversion Hall; assumption.
Qed.

Lemma readers_inv_init fuel css :
  Forall (fun cs => matched 0 cs = true) css ->
  readers_inv fuel (zsum (map rlocks css))
    (map (calls fuel) css) (map (fun cs => (0, cs)) css) rwmutexUnlocked.
Proof.
  intros Hm.
  assert (Hz : zsum (map held (map (fun cs : list rcall => (0, cs)) css)) = 0).
  { clear Hm. induction css as [| cs css IH]; cbn [map zsum held fst]; [reflexivity | lia]. }
  repeat split.
  - clear Hz. induction Hm as [| cs css Hcs _ IH]; cbn [map];
      [constructor | constructor; [split; [reflexivity | exact Hcs] | exact IH]].
  - apply Forall_forall. intros g Hg. apply in_map_iff in Hg.
    destruct Hg as (cs & <- & _). cbn. lia.
  - rewrite Hz. reflexivity.
  - rewrite Hz, map_map, Z.add_0_l. cbn [todo snd]. apply Z.le_refl.
Qed.

Lemma remaining_init css j :
  remaining (map (fun cs : list rcall => (0, cs)) css) j = List.length (nth j css []).
Proof.
  unfold remaining. revert j.
  induction css as [| cs css IH]; intros [| j]; cbn [map nth_error nth]; try reflexivity.
  apply IH.
Qed.

Lemma total_balance_zero css :
  Forall (fun cs => balance cs = 0) css -> total_balance css = 0.
Proof.
  induction 1 as [| cs css Hcs _ IH]; cbn [total_balance]; lia.
Qed.

(** C7: goroutines making [RLock] and [RUnlock] calls on a lock that starts
    unlocked, their atomic steps interleaved in any order.  If between them
    they make as many [RLock] as [RUnlock] calls, then once all of them
    have returned from all their calls the word is [rwmutexUnlocked] again.
    And when each goroutine gives back exactly the read locks it took,
    fewer than [2^31] in all, then under any schedule that lets every
    goroutine take a step for each of its calls, all of them do return
    (none panics, none waits) and the word is [rwmutexUnlocked] again. *)
Theorem RLock_RUnlock_round_trip
  (fuel : nat) (css : list (list rcall)) (sched : list nat) :
  let final := interleave sched (map (calls fuel) css) rwmutexUnlocked in
  (total_balance css = 0 ->
   Forall returned (fst final) ->
   snd final = rwmutexUnlocked)
  /\ (Forall (fun cs => matched 0 cs = true) css ->
      Forall (fun cs => balance cs = 0) css ->
      zsum (map rlocks css) < 2 ^ 31 ->
      (forall j, (List.length (nth j css []) <= count_occ Nat.eq_dec sched j)%nat) ->
      Forall returned (fst final) /\ snd final = rwmutexUnlocked).
Proof.
  cbv zeta.
  assert (A : total_balance css = 0 ->
              Forall returned (fst (interleave sched (map (calls fuel) css) rwmutexUnlocked)) ->
              snd (interleave sched (map (calls fuel) css) rwmutexUnlocked) = rwmutexUnlocked).
  { intros Hbal Hret.
    destruct (interleave_inv fuel (total_balance css) sched _ _ _ (pool_inv_init fuel css))
      as (css' & HF & Hm).
    rewrite Hm, (all_returned_balance fuel _ _ HF Hret), Hbal. reflexivity. }
  split; [exact A |].
  intros Hmatched Hbalanced Hbound Hfair.
  destruct (interleave_readers fuel (zsum (map rlocks css)) Hbound sched _ _ _
              (readers_inv_init fuel css Hmatched)) as (gs & Hinv & Hrem).
  assert (Hret : Forall returned
                   (fst (interleave sched (map (calls fuel) css) rwmutexUnlocked))).
  { apply (readers_all_returned fuel _ _ gs _ Hinv).
    apply nothing_remaining. intros j.
    rewrite Hrem, remaining_init. specialize (Hfair j). lia. }
  split; [exact Hret |].
  exact (A (total_balance_zero css Hbalanced) Hret).
Qed.

Lemma RLock_RUnlock_round_trip_witness :
  let css := [[CallRLock; CallRUnlock];
              [CallRLock; CallRLock; CallRUnlock; CallRUnlock];
              [CallRLock; CallRUnlock]] in
  let sched := [0; 1; 2; 1; 1; 0; 2; 1]%nat in
  let final := interleave sched (map (calls 1) css) rwmutexUnlocked in
  snd final = rwmutexUnlocked
  /\ (Forall returned (fst final) /\ snd final = rwmutexUnlocked).
Proof.
  cbv zeta.
  pose proof (RLock_RUnlock_round_trip 1
                [[CallRLock; CallRUnlock];
                 [CallRLock; CallRLock; CallRUnlock; CallRUnlock];
                 [CallRLock; CallRUnlock]]
                [0; 1; 2; 1; 1; 0; 2; 1]%nat) as H.
  cbv zeta in H. destruct H as [A B].
  split.
  - apply A.
    + reflexivity.
    + vm_compute. repeat constructor.
  - apply B.
    + repeat constructor.
    + repeat constructor.
    + vm_compute. reflexivity.
    + intros j. do 3 (destruct j as [| j]; [cbn; lia |]).
      destruct j; cbn; lia.
Defined.

(** * Pools and their program points *)

Lemma set_nth_same {A} (l : list A) :
  forall i x, nth_error l i = Some x -> set_nth i x l = l.
Proof.
  induction l as [| a l IH]; intros i x Hi.
  - destruct i; reflexivity.
  - destruct i as [| i]; cbn [set_nth].
    + injection Hi as <-. reflexivity.
    + f_equal. exact (IH i x Hi).
Qed.

Lemma set_nth_map {A B} (f : A -> B) (l : list A) :
  forall i x, set_nth i (f x) (map f l) = map f (set_nth i x l).
Proof.
  induction l as [| a l IH]; intros i x.
  - destruct i; reflexivity.
  - destruct i as [| i]; cbn [set_nth map]; [reflexivity |].
    f_equal. apply IH.
Qed.

Lemma set_nth_length {A} (l : list A) :
  forall i x, List.length (set_nth i x l) = List.length l.
Proof.
  induction l as [| a l IH]; intros i x.
  - destruct i; reflexivity.
  - destruct i as [| i]; cbn [set_nth List.length]; [reflexivity |].
    f_equal. apply IH.
Qed.

Section Simulation.

Variables (Ph : Type) (f : Ph -> prog unit) (next : Ph -> Z -> Ph * Z).

(** [next] is what [step] does, point by point. *)
Hypothesis sim : forall ph m,
    (step (f ph) m = None /\ next ph m = (ph, m))
    \/ exists e, step (f ph) m = Some (e, f (fst (next ph m)), snd (next ph m)).

Lemma sched_step_sim i phs m :
  sched_step i (map f phs) m
  = (map f (fst (phase_step next i phs m)), snd (phase_step next i phs m)).
Proof.
  unfold sched_step, phase_step. rewrite nth_error_map.
  destruct (nth_error phs i) as [ph |] eqn:Hi; cbn [option_map]; [| reflexivity].
  destruct (sim ph m) as [[Hs Hn] | [e Hs]]; rewrite Hs.
  - rewrite Hn. cbn [fst snd]. now rewrite (set_nth_same phs i ph Hi).
  - destruct (next ph m) as [ph' m']. cbn [fst snd]. now rewrite set_nth_map.
Qed.

Lemma interleave_sim sched :
  forall phs m,
    interleave sched (map f phs) m
    = (map f (fst (phase_interleave next sched phs m)),
       snd (phase_interleave next sched phs m)).
Proof.
  induction sched as [| i sched IH]; intros phs m; [reflexivity |].
  cbn [interleave phase_interleave]. rewrite sched_step_sim.
  destruct (phase_step next i phs m) as [phs' m']. cbn [fst snd]. apply IH.
Qed.

(** A property of pools kept by every step is kept by every schedule. *)
Lemma phase_interleave_inv (Inv : list Ph -> Z -> Prop) :
  (forall i phs m, Inv phs m ->
                   Inv (fst (phase_step next i phs m)) (snd (phase_step next i phs m))) ->
  forall sched phs m,
    Inv phs m ->
    Inv (fst (phase_interleave next sched phs m)) (snd (phase_interleave next sched phs m)).
Proof.
  intros Hstep. induction sched as [| i sched IH]; intros phs m H; [exact H |].
  cbn [phase_interleave]. specialize (Hstep i phs m H).
  destruct (phase_step next i phs m) as [phs' m']. exact (IH phs' m' Hstep).
Qed.

End Simulation.

(** * Goroutines sharing a [Mutex] *)

Lemma mnext_sim fuel ph m :
  (step (mprog fuel ph) m = None /\ mnext fuel ph m = (ph, m))
  \/ exists e,
      step (mprog fuel ph) m
      = Some (e, mprog fuel (fst (mnext fuel ph m)), snd (mnext fuel ph m)).
Proof.
  destruct ph as [[| [|] js] | [| k] js | k js | js |].
  - left. split; reflexivity.
  - destruct fuel as [| fuel]; [left; split; reflexivity |].
    right. cbn. destruct (m =? mutexUnlocked); eexists; reflexivity.
  - right. cbn. destruct (m =? mutexUnlocked); eexists; reflexivity.
  - left. split; reflexivity.
  - right. cbn. destruct (m =? mutexUnlocked); eexists; reflexivity.
  - right. eexists. reflexivity.
  - right. cbn [mprog mnext]. unfold_calls.
    destruct (negb (Int.int32 (m + - mutexLocked) =? mutexUnlocked));
      eexists; reflexivity.
  - left. split; reflexivity.
Qed.

Lemma mnext_inv fuel ph m :
  mpanicked ph = false -> 0 <= m <= 1 -> mholding ph <= m ->
  mpanicked (fst (mnext fuel ph m)) = false
  /\ snd (mnext fuel ph m) = m - mholding ph + mholding (fst (mnext fuel ph m))
  /\ 0 <= snd (mnext fuel ph m) <= 1.
Proof.
  intros Hp Hm Hh.
  assert (Hatt : forall k js,
             mholding ph = 0 ->
             mpanicked (fst (mattempt ph k js m)) = false
             /\ snd (mattempt ph k js m) = m - mholding ph + mholding (fst (mattempt ph k js m))
             /\ 0 <= snd (mattempt ph k js m) <= 1).
  { intros k js H0. destruct k as [| k]; cbn [mattempt fst snd].
    - repeat split; [exact Hp | lia | lia | lia].
    - destruct (Z.eqb_spec m mutexUnlocked) as [-> | _]; cbn [fst snd mholding mpanicked];
        unfold mutexLocked, mutexUnlocked in *; repeat split; lia. }
  destruct ph as [[| [|] js] | k js | k js | js |]; cbn [mnext].
  - cbn [fst snd mholding]. repeat split; lia.
  - apply Hatt. reflexivity.
  - destruct (Z.eqb_spec m mutexUnlocked) as [-> | _]; cbn [fst snd mholding mpanicked];
      unfold mutexLocked, mutexUnlocked in *; repeat split; lia.
  - apply Hatt. reflexivity.
  - cbn [fst snd mholding mpanicked]. repeat split; lia.
  - cbn [mholding] in Hh. assert (m = 1) by lia. subst m.
    cbn [fst snd mholding mpanicked]. repeat split; vm_compute; congruence.
  - discriminate Hp.
Qed.

Lemma mholding_nonneg phs : Forall (fun ph => 0 <= mholding ph) phs.
Proof. apply Forall_forall. intros [] _; cbn; lia. Qed.

Lemma mutex_step_inv fuel i phs m :
  mutex_inv phs m ->
  mutex_inv (fst (phase_step (mnext fuel) i phs m)) (snd (phase_step (mnext fuel) i phs m)).
Proof.
  intros (Hm & Hr & Hp). unfold phase_step.
  destruct (nth_error phs i) as [ph |] eqn:Hi;
    [| split; [exact Hm | split; [exact Hr | exact Hp]]].
  assert (Hph : mpanicked ph = false)
    by exact (proj1 (Forall_forall _ _) Hp ph (nth_error_In _ _ Hi)).
  pose proof (zsum_nth_le mholding phs (mholding_nonneg phs) i ph Hi) as Hle.
  rewrite <- Hm in Hle.
  destruct (mnext_inv fuel ph m Hph Hr Hle) as (Hp' & Hm' & Hr').
  destruct (mnext fuel ph m) as [ph' m']. cbn [fst snd] in *.
  repeat split; try lia.
  - rewrite (zsum_set_nth mholding phs i ph' ph Hi). lia.
  - apply Forall_set_nth; assumption.
Qed.

Lemma mutex_holders fuel phs :
  Forall (fun ph => mpanicked ph = false) phs ->
  Z.of_nat (List.length (filter holds_mutex (map (mprog fuel) phs)))
  = zsum (map mholding phs)
  /\ existsb has_panicked (map (mprog fuel) phs) = false.
Proof.
  induction 1 as [| ph phs Hph _ [IH1 IH2]]; [split; reflexivity |].
  cbn [map filter existsb zsum].
  assert (E : holds_mutex (mprog fuel ph) = (mholding ph =? 1)
              /\ has_panicked (mprog fuel ph) = false).
  { destruct ph as [[| [|] js] | k js | k js | js |]; try (split; reflexivity).
    - destruct fuel; split; reflexivity.
    - destruct k; split; reflexivity.
    - discriminate Hph. }
  destruct E as [E1 E2]. rewrite E1, E2, IH2. split; [| reflexivity].
  destruct ph; cbn [mholding];
    change (0 =? 1) with false; change (1 =? 1) with true;
    cbn [List.length]; rewrite ?Nat2Z.inj_succ; lia.
Qed.

(** X1.  Goroutines that use a [Mutex] in sections [Lock ... Unlock] or
    [if TryLock { ... Unlock }], starting from the unlocked word, their
    atomic steps interleaved in any order: the word is always the number
    of goroutines that hold the mutex (are between a successful acquisition
    and the add of their [Unlock]), which is at most one, and no goroutine
    ever panics. *)
Theorem Mutex_mutual_exclusion
  (fuel : nat) (jobs : list (list msection)) (sched : list nat) :
  let final := interleave sched (map (mjobs fuel) jobs) mutexUnlocked in
  snd final = Z.of_nat (List.length (filter holds_mutex (fst final)))
  /\ (List.length (filter holds_mutex (fst final)) <= 1)%nat
  /\ existsb has_panicked (fst final) = false.
Proof.
  cbv zeta.
  replace (map (mjobs fuel) jobs) with (map (mprog fuel) (map MIdle jobs))
    by (rewrite map_map; reflexivity).
  rewrite (interleave_sim mphase (mprog fuel) (mnext fuel) (mnext_sim fuel)).
  cbn [fst snd].
  assert (H0 : mutex_inv (map MIdle jobs) mutexUnlocked).
  { repeat split; [| unfold mutexUnlocked; lia | unfold mutexUnlocked; lia |].
    - induction jobs as [| js jobs IH]; [reflexivity |].
      cbn [map zsum mholding]. rewrite <- IH. reflexivity.
    - apply Forall_forall. intros ph Hin. apply in_map_iff in Hin.
      destruct Hin as (js & <- & _). reflexivity. }
  pose proof (phase_interleave_inv mphase (mnext fuel) mutex_inv
                (mutex_step_inv fuel) sched _ _ H0) as (Hm & Hr & Hp).
  destruct (phase_interleave (mnext fuel) sched (map MIdle jobs) mutexUnlocked)
    as [phs m]. cbn [fst snd] in *.
  destruct (mutex_holders fuel phs Hp) as [Hc Hn].
  repeat split; [lia | lia | exact Hn].
Qed.

(** X2.  One goroutine going through any number of sections on an
    unlocked [Mutex], with nobody else around: every [Lock] and [TryLock]
    succeeds at its first attempt, every [Unlock] returns, and the mutex is
    unlocked again at the end. *)
Theorem Mutex_sections_in_sequence (fuel : nat) (js : list msection) :
  run (mjobs (S fuel) js) mutexUnlocked
  = (Returns tt, mutexUnlocked,
     List.concat (map (fun _ => [EvCas mutexUnlocked mutexLocked true;
                            EvAdd (- mutexLocked) mutexUnlocked]) js)).
Proof.
  induction js as [| s js IH]; [reflexivity |].
  cbn [mjobs map List.concat]. rewrite run_bind.
  assert (E : run (msection_prog (S fuel) s) mutexUnlocked
              = (Returns tt, mutexUnlocked,
                 [EvCas mutexUnlocked mutexLocked true;
                  EvAdd (- mutexLocked) mutexUnlocked])).
  { destruct s; reflexivity. }
  rewrite E, IH. reflexivity.
Qed.

(** * Goroutines sharing an [RWMutex] *)

Lemma rwnext_sim fuel ph m :
  (step (rwprog fuel ph) m = None /\ rwnext fuel ph m = (ph, m))
  \/ exists e,
      step (rwprog fuel ph) m
      = Some (e, rwprog fuel (fst (rwnext fuel ph m)), snd (rwnext fuel ph m)).
Proof.
  destruct ph as [[| [| | | |] js] | [| k] js | k js | js | js | [| k] js | k js | js | msg].
  - left. split; reflexivity.
  - right. cbn [rwprog rwnext rwjobs rwsection_prog]. unfold_calls.
    destruct (Z.land (Int.uint32 (m + rwmutexReadOffset)) rwmutexWrite =? 0);
      eexists; reflexivity.
  - right. cbn [rwprog rwnext rwjobs rwsection_prog].
    unfold RWMutex.rlocker.Lock, RWMutex.rlocker.Unlock. unfold_calls.
    destruct (Z.land (Int.uint32 (m + rwmutexReadOffset)) rwmutexWrite =? 0);
      eexists; reflexivity.
  - right. cbn [rwprog rwnext rwjobs rwsection_prog]. unfold_calls.
    destruct (Z.land (Int.uint32 (m + rwmutexReadOffset)) rwmutexWrite =? 0);
      eexists; reflexivity.
  - destruct fuel as [| fuel]; [left; split; reflexivity |].
    right. cbn [rwprog rwnext rwjobs rwsection_prog wattempt RWMutex.Lock]. unfold_calls.
    destruct (m =? rwmutexUnlocked); eexists; reflexivity.
  - right. cbn [rwprog rwnext rwjobs rwsection_prog]. unfold_calls.
    destruct (m =? rwmutexUnlocked); eexists; reflexivity.
  - left. split; reflexivity.
  - right. cbn [rwprog rwnext RWMutex.RLock_wait]. unfold_calls.
    destruct (Z.land m rwmutexWrite =? 0); eexists; reflexivity.
  - right. eexists. reflexivity.
  - right. cbn [rwprog rwnext]. unfold_calls.
    destruct (Z.land (Int.uint32 (m + rwmutexReaderDecrease)) rwmutexUnderflow
              =? rwmutexUnderflow); eexists; reflexivity.
  - right. eexists. reflexivity.
  - left. split; reflexivity.
  - right. cbn [rwprog rwnext wattempt RWMutex.Lock]. unfold_calls.
    destruct (m =? rwmutexUnlocked); eexists; reflexivity.
  - right. eexists. reflexivity.
  - right. cbn [rwprog rwnext]. unfold_calls.
    destruct (Z.land (Int.uint32 (m + rwmutexWriterUnset)) rwmutexWrite >? 0);
      eexists; reflexivity.
  - left. split; reflexivity.
Qed.

Lemma zsum_le_pointwise {A} (f g : A -> Z) (l : list A) :
  (forall x, f x <= g x) -> zsum (map f l) <= zsum (map g l).
Proof.
  intros H. induction l as [| a l IH]; cbn [map zsum]; [lia |].
  specialize (H a). lia.
Qed.

Lemma zsum_nonneg {A} (f : A -> Z) (l : list A) :
  (forall x, 0 <= f x) -> 0 <= zsum (map f l).
Proof.
  intros H. induction l as [| a l IH]; cbn [map zsum]; [lia |].
  specialize (H a). lia.
Qed.

Lemma zsum_others_le {A} (f : A -> Z) (l : list A) :
  (forall x, 0 <= f x <= 1) ->
  forall i x, nth_error l i = Some x ->
              zsum (map f l) - f x + 1 <= Z.of_nat (List.length l).
Proof.
  intros Hf. induction l as [| a l IH]; intros i x Hi.
  - destruct i; discriminate Hi.
  - assert (Hl : zsum (map f l) <= Z.of_nat (List.length l)).
    { clear IH Hi. induction l as [| b l IHl]; cbn [map zsum List.length]; [lia |].
      specialize (Hf b). rewrite Nat2Z.inj_succ. lia. }
    cbn [map zsum List.length]. rewrite Nat2Z.inj_succ.
    destruct i as [| i].
    + injection Hi as <-. lia.
    + cbn [nth_error] in Hi. specialize (IH i x Hi). specialize (Hf a). lia.
Qed.

(** The arithmetic of a word that is [2 * R + W]: [R] read offsets and
    [W] writers. *)
Lemma word_add_offset R W :
  0 <= R -> 0 <= W <= 1 -> R + 1 < 2 ^ 31 ->
  Int.uint32 (2 * R + W + rwmutexReadOffset) = 2 * (R + 1) + W
  /\ (Z.land (2 * (R + 1) + W) rwmutexWrite =? 0) = (W =? 0).
Proof.
  intros HR HW Hb. rewrite rwmutexReadOffset_val, land_write. split.
  - replace (2 * R + W + 2) with (2 * (R + 1) + W) by lia.
    apply uint32_small. unfold Int.is_uint32. lia.
  - destruct (Z.eqb_spec W 0) as [-> | HW0].
    + apply Z.eqb_eq. Z.div_mod_to_equations; lia.
    + apply Z.eqb_neq. assert (W = 1) by lia. subst W.
      Z.div_mod_to_equations; lia.
Qed.

Lemma word_flag R W :
  0 <= W <= 1 -> (Z.land (2 * R + W) rwmutexWrite =? 0) = (W =? 0).
Proof.
  intros HW. rewrite land_write.
  destruct (Z.eqb_spec W 0) as [-> | HW0].
  - apply Z.eqb_eq. Z.div_mod_to_equations; lia.
  - apply Z.eqb_neq. assert (W = 1) by lia. subst W.
    Z.div_mod_to_equations; lia.
Qed.

Lemma word_sub_offset R W :
  1 <= R -> 0 <= W <= 1 -> R < 2 ^ 31 ->
  Int.uint32 (2 * R + W + rwmutexReaderDecrease) = 2 * (R - 1) + W
  /\ (Z.land (2 * (R - 1) + W) rwmutexUnderflow =? rwmutexUnderflow) = false.
Proof.
  intros HR HW Hb.
  assert (Hu : Int.is_uint32 (2 * (R - 1) + W)) by (unfold Int.is_uint32; lia).
  split.
  - rewrite add_ReaderDecrease, rwmutexReadOffset_val.
    replace (2 * R + W - 2) with (2 * (R - 1) + W) by lia.
    apply uint32_small, Hu.
  - rewrite (underflow_test _ Hu). unfold reader_count_underflowed.
    rewrite reader_count_div. change (Z.ones 31) with (2 ^ 31 - 1).
    apply Z.eqb_neq. Z.div_mod_to_equations; lia.
Qed.

Lemma word_sub_write R :
  0 <= R -> R < 2 ^ 31 ->
  Int.uint32 (2 * R + 1 + rwmutexWriterUnset) = 2 * R
  /\ (Z.land (2 * R) rwmutexWrite >? 0) = false.
Proof.
  intros HR Hb. split.
  - rewrite add_WriterUnset, rwmutexWrite_val.
    replace (2 * R + 1 - 1) with (2 * R) by lia.
    apply uint32_small. unfold Int.is_uint32. lia.
  - rewrite land_write_pos, <- (uint32_small (2 * R)) by (unfold Int.is_uint32; lia).
    apply write_flag_even.
Qed.

Lemma rwnext_inv fuel ph m R W H :
  rwpanicked ph = false ->
  m = 2 * R + W -> 0 <= W <= 1 -> (W = 1 -> H = 0) -> 0 <= H <= R ->
  incremented ph <= R -> writing ph <= W -> reading ph <= H ->
  R - incremented ph + 1 < 2 ^ 31 ->
  rwpanicked (fst (rwnext fuel ph m)) = false
  /\ snd (rwnext fuel ph m)
     = 2 * (R - incremented ph + incremented (fst (rwnext fuel ph m)))
       + (W - writing ph + writing (fst (rwnext fuel ph m)))
  /\ W - writing ph + writing (fst (rwnext fuel ph m)) <= 1
  /\ (W - writing ph + writing (fst (rwnext fuel ph m)) = 1 ->
      H - reading ph + reading (fst (rwnext fuel ph m)) = 0).
Proof.
  intros Hp Hm HW HWH HH Hi Hw Hr Hb.
  assert (Hrd : forall js (ph' : rwphase),
             incremented ph = 0 -> writing ph = 0 -> reading ph = 0 ->
             incremented ph' = 1 -> writing ph' = 0 -> reading ph' = 0 ->
             rwpanicked ph' = false ->
             let v := Int.uint32 (m + rwmutexReadOffset) in
             let r := if Z.land v rwmutexWrite =? 0 then (RHolding js, v) else (ph', v) in
             rwpanicked (fst r) = false
             /\ snd r = 2 * (R - incremented ph + incremented (fst r))
                        + (W - writing ph + writing (fst r))
             /\ W - writing ph + writing (fst r) <= 1
             /\ (W - writing ph + writing (fst r) = 1 ->
                 H - reading ph + reading (fst r) = 0)).
  { intros js ph' Ei Ew Er Ei' Ew' Er' Ep'. cbv zeta.
    destruct (word_add_offset R W ltac:(lia) HW ltac:(lia)) as [Ev Ef].
    rewrite Hm, Ev, Ef.
    destruct (Z.eqb_spec W 0) as [E0 | E0]; cbn [fst snd incremented writing reading rwpanicked];
      repeat split; try lia; try assumption. }
  assert (Hwa : forall k js,
             incremented ph = 0 -> writing ph = 0 -> reading ph = 0 ->
             let r := wattempt ph k js m in
             rwpanicked (fst r) = false
             /\ snd r = 2 * (R - incremented ph + incremented (fst r))
                        + (W - writing ph + writing (fst r))
             /\ W - writing ph + writing (fst r) <= 1
             /\ (W - writing ph + writing (fst r) = 1 ->
                 H - reading ph + reading (fst r) = 0)).
  { intros k js Ei Ew Er. cbv zeta. destruct k as [| k]; cbn [wattempt fst snd].
    - repeat split; try lia; assumption.
    - unfold rwmutexUnlocked. rewrite rwmutexWrite_val.
      destruct (Z.eqb_spec m 0) as [E0 | E0];
        cbn [fst snd incremented writing reading rwpanicked];
        repeat split; lia. }
  destruct ph as [[| [| | | |] js] | [| k] js | k js | js | js | k js | k js | js | msg];
    cbn [rwnext].
  - cbn [fst snd incremented writing reading rwpanicked]. repeat split; lia.
  - apply (Hrd js (RPolling fuel js)); reflexivity.
  - apply (Hrd js (RPolling fuel js)); reflexivity.
  - apply (Hrd js (RUndoing js)); reflexivity.
  - apply Hwa; reflexivity.
  - unfold rwmutexUnlocked. rewrite rwmutexWrite_val.
    destruct (Z.eqb_spec m 0) as [E0 | E0];
      cbn [fst snd incremented writing reading rwpanicked] in *;
      repeat split; lia.
  - cbn [fst snd incremented writing reading rwpanicked] in *. repeat split; lia.
  - rewrite Hm, (word_flag R W HW).
    destruct (Z.eqb_spec W 0) as [E0 | E0];
      cbn [fst snd incremented writing reading rwpanicked] in *;
      repeat split; lia.
  - cbn [fst snd incremented writing reading rwpanicked] in *. repeat split; lia.
  - cbn [incremented writing reading] in *.
    destruct (word_sub_offset R W ltac:(lia) HW ltac:(lia)) as [Ev Ef].
    cbv zeta. rewrite Hm, Ev, Ef.
    cbn [fst snd incremented writing reading rwpanicked]. repeat split; lia.
  - cbn [incremented writing reading] in *.
    destruct (word_sub_offset R W ltac:(lia) HW ltac:(lia)) as [Ev _].
    rewrite Hm, Ev.
    cbn [fst snd incremented writing reading rwpanicked]. repeat split; lia.
  - apply Hwa; reflexivity.
  - cbn [fst snd incremented writing reading rwpanicked] in *. repeat split; lia.
  - cbn [incremented writing reading] in *. assert (W = 1) by lia. subst W.
    destruct (word_sub_write R ltac:(lia) ltac:(lia)) as [Ev Ef].
    cbv zeta. rewrite Hm, Ev, Ef.
    cbn [fst snd incremented writing reading rwpanicked]. repeat split; lia.
  - discriminate Hp.
Qed.

Lemma rw_step_inv fuel bound (Hb : bound < 2 ^ 31) i phs m :
  rw_inv bound phs m ->
  rw_inv bound (fst (phase_step (rwnext fuel) i phs m))
    (snd (phase_step (rwnext fuel) i phs m)).
Proof.
  intros (Hm & HW & HWH & Hp & Hlen). unfold phase_step.
  destruct (nth_error phs i) as [ph |] eqn:Hi;
    [| split; [exact Hm | split; [exact HW | split; [exact HWH | split; assumption]]]].
  assert (Hph : rwpanicked ph = false)
    by exact (proj1 (Forall_forall _ _) Hp ph (nth_error_In _ _ Hi)).
  assert (Hinc : forall x : rwphase, 0 <= incremented x <= 1) by (intros []; cbn; lia).
  assert (Hwr : forall x : rwphase, 0 <= writing x <= 1) by (intros []; cbn; lia).
  assert (Hrd : forall x : rwphase, 0 <= reading x <= incremented x) by (intros []; cbn; lia).
  pose proof (zsum_nonneg writing phs (fun x => proj1 (Hwr x))) as HW0.
  pose proof (zsum_nonneg reading phs (fun x => proj1 (Hrd x))) as HH0.
  pose proof (zsum_le_pointwise reading incremented phs (fun x => proj2 (Hrd x))) as HHR.
  pose proof (zsum_nth_le incremented phs
                (proj2 (Forall_forall _ _) (fun x _ => proj1 (Hinc x))) i ph Hi) as Li.
  pose proof (zsum_nth_le writing phs
                (proj2 (Forall_forall _ _) (fun x _ => proj1 (Hwr x))) i ph Hi) as Lw.
  pose proof (zsum_nth_le reading phs
                (proj2 (Forall_forall _ _) (fun x _ => proj1 (Hrd x))) i ph Hi) as Lr.
  pose proof (zsum_others_le incremented phs Hinc i ph Hi) as Lb.
  destruct (rwnext_inv fuel ph m _ _ _ Hph Hm ltac:(lia) HWH ltac:(lia) Li Lw Lr ltac:(lia))
    as (Hp' & Hm' & HW' & HWH').
  destruct (rwnext fuel ph m) as [ph' m']. cbn [fst snd] in *.
  unfold rw_inv. cbv beta iota. cbn [fst snd].
  rewrite !(zsum_set_nth _ phs i ph' ph Hi).
  split; [exact Hm' | split; [exact HW' | split; [exact HWH' | split]]].
  - apply Forall_set_nth; assumption.
  - rewrite set_nth_length. exact Hlen.
Qed.

Lemma rw_not_panicked fuel phs :
  Forall (fun ph => rwpanicked ph = false) phs ->
  existsb has_panicked (map (rwprog fuel) phs) = false.
Proof.
  induction 1 as [| ph phs Hph _ IH]; [reflexivity |].
  cbn [map existsb]. rewrite IH, orb_false_r.
  destruct ph as [[| [| | | |] js] | [| k] js | k js | js | js | [| k] js | k js | js | msg];
    try reflexivity.
  - destruct fuel; reflexivity.
  - discriminate Hph.
Qed.

(** Every pool reached from idle goroutines and the unlocked word is the
    image of program points that satisfy [rw_inv]. *)
Lemma rw_pool_reach
  (fuel : nat) (jobs : list (list rwsection)) (sched : list nat)
  (Hn : Z.of_nat (List.length jobs) < 2 ^ 31) :
  exists phs : list rwphase,
    fst (interleave sched (map (rwjobs fuel) jobs) rwmutexUnlocked)
    = map (rwprog fuel) phs
    /\ rw_inv (Z.of_nat (List.length jobs)) phs
         (snd (interleave sched (map (rwjobs fuel) jobs) rwmutexUnlocked)).
Proof.
  replace (map (rwjobs fuel) jobs) with (map (rwprog fuel) (map RWIdle jobs))
    by (rewrite map_map; reflexivity).
  rewrite (interleave_sim rwphase (rwprog fuel) (rwnext fuel) (rwnext_sim fuel)).
  cbn [fst snd].
  assert (H0 : rw_inv (Z.of_nat (List.length jobs)) (map RWIdle jobs) rwmutexUnlocked).
  { assert (Z1 : zsum (map incremented (map RWIdle jobs)) = 0
                 /\ zsum (map writing (map RWIdle jobs)) = 0).
    { clear Hn. induction jobs as [| js jobs IH]; [split; reflexivity |].
      cbn [map zsum incremented writing]. destruct IH as [-> ->].
      split; reflexivity. }
    destruct Z1 as [Zi Zw]. unfold rw_inv. rewrite Zi, Zw, length_map.
    split; [reflexivity | split; [lia | split; [lia | split; [| reflexivity]]]].
    apply Forall_forall. intros ph Hin. apply in_map_iff in Hin.
    destruct Hin as (js & <- & _). reflexivity. }
  pose proof (phase_interleave_inv rwphase (rwnext fuel)
                (rw_inv (Z.of_nat (List.length jobs)))
                (rw_step_inv fuel _ Hn) sched _ _ H0) as H.
  destruct (phase_interleave (rwnext fuel) sched (map RWIdle jobs) rwmutexUnlocked)
    as [phs m]. cbn [fst snd] in *.
  exists phs. split; [reflexivity | exact H].
Qed.

(** X3.  Fewer than [2^31] goroutines that use an [RWMutex] in sections
    (read sections through [RLock], [RLocker] or [TryRLock], write sections
    through [Lock] or [TryLock], each closed by the matching unlock),
    starting from the unlocked word, their atomic steps interleaved in any
    order.  At every moment the goroutines are at program points [phs] such
    that the word is twice the number of read offsets added and not yet
    taken back, plus one when a writer holds the lock; at most one writer
    holds it; no reader holds it while a writer does (readers that added
    their offset meanwhile are still polling or about to undo); and no
    goroutine has panicked. *)
Theorem RWMutex_exclusion
  (fuel : nat) (jobs : list (list rwsection)) (sched : list nat)
  (Hn : Z.of_nat (List.length jobs) < 2 ^ 31) :
  let final := interleave sched (map (rwjobs fuel) jobs) rwmutexUnlocked in
  exists phs : list rwphase,
    fst final = map (rwprog fuel) phs
    /\ snd final = 2 * zsum (map incremented phs) + zsum (map writing phs)
    /\ 0 <= zsum (map writing phs) <= 1
    /\ (zsum (map writing phs) = 1 -> zsum (map reading phs) = 0)
    /\ 0 <= zsum (map reading phs) <= zsum (map incremented phs)
    /\ existsb has_panicked (fst final) = false.
Proof.
  cbv zeta.
  destruct (rw_pool_reach fuel jobs sched Hn) as (phs & Hps & Hm & HW & HWH & Hp & _).
  exists phs.
  assert (Hwr : forall x : rwphase, 0 <= writing x) by (intros []; cbn; lia).
  assert (Hrd : forall x : rwphase, 0 <= reading x <= incremented x) by (intros []; cbn; lia).
  pose proof (zsum_nonneg writing phs Hwr) as HW0.
  pose proof (zsum_nonneg reading phs (fun x => proj1 (Hrd x))) as HH0.
  pose proof (zsum_le_pointwise reading incremented phs (fun x => proj2 (Hrd x))) as HHR.
  split; [exact Hps | split; [exact Hm | split; [lia | split; [exact HWH | split; [lia |]]]]].
  rewrite Hps. apply rw_not_panicked, Hp.
Qed.

Lemma RWMutex_exclusion_witness :
  let jobs := [[UseWLock; UseRLock]; [UseRLock; UseTryWLock]; [UseTryRLock; UseRLocker]] in
  let sched := [0; 1; 2; 1; 2; 0; 1; 1; 2; 0; 2; 0; 1; 1; 2]%nat in
  let final := interleave sched (map (rwjobs 3) jobs) rwmutexUnlocked in
  exists phs : list rwphase,
    fst final = map (rwprog 3) phs
    /\ snd final = 2 * zsum (map incremented phs) + zsum (map writing phs)
    /\ 0 <= zsum (map writing phs) <= 1
    /\ (zsum (map writing phs) = 1 -> zsum (map reading phs) = 0)
    /\ 0 <= zsum (map reading phs) <= zsum (map incremented phs)
    /\ existsb has_panicked (fst final) = false.
Proof.
  cbv zeta.
  apply (RWMutex_exclusion 3
           [[UseWLock; UseRLock]; [UseRLock; UseTryWLock]; [UseTryRLock; UseRLocker]]
           [0; 1; 2; 1; 2; 0; 1; 1; 2; 0; 2; 0; 1; 1; 2]%nat).
  vm_compute. reflexivity.
Defined.

Lemma rwjobs_not_panic fuel js msg : rwjobs fuel js <> Done (Panics msg).
Proof.
  destruct js as [| [| | | |] js]; try discriminate.
  destruct fuel; discriminate.
Qed.

(** A goroutine whose program is [RUnlock] and then more sections is at the
    point [RHolding]; one whose program is the write [Unlock] and then more
    sections is at the point [WHolding]. *)
Lemma rwprog_reading fuel ph js :
  rwprog fuel ph = (RWMutex.RUnlock ;; rwjobs fuel js) -> reading ph = 1.
Proof.
  destruct ph as [[| [| | | |] js'] | [| k] js' | k js' | js' | js' | [| k] js' | k js' | js' | msg];
    try discriminate; try reflexivity.
  - destruct fuel; discriminate.
  - cbn [rwprog]. unfold_calls. intros H. injection H as H.
    apply (f_equal (fun k => k rwmutexUnderflow)) in H. cbv beta in H.
    rewrite Z.land_diag, Z.eqb_refl in H. cbn [bind] in H.
    exfalso. exact (rwjobs_not_panic fuel js' _ H).
Qed.

Lemma rwprog_writing fuel ph js :
  rwprog fuel ph = (RWMutex.Unlock ;; rwjobs fuel js) -> writing ph = 1.
Proof.
  destruct ph as [[| [| | | |] js'] | [| k] js' | k js' | js' | js' | [| k] js' | k js' | js' | msg];
    try discriminate; try reflexivity.
  destruct fuel; discriminate.
Qed.

Lemma zsum_two_le {A} (f : A -> Z) (l : list A) :
  (forall x, 0 <= f x) ->
  forall i j x y,
    i <> j -> nth_error l i = Some x -> nth_error l j = Some y ->
    f x + f y <= zsum (map f l).
Proof.
  intros Hf. induction l as [| a l IH]; intros i j x y Hij Hi Hj.
  - destruct i; discriminate Hi.
  - pose proof (zsum_nonneg f l Hf) as Hl.
    assert (HF : Forall (fun a => 0 <= f a) l) by (apply Forall_forall; intros; apply Hf).
    cbn [map zsum]. destruct i as [| i], j as [| j]; cbn [nth_error] in Hi, Hj.
    + contradiction Hij. reflexivity.
    + injection Hi as <-. pose proof (zsum_nth_le f l HF j y Hj). lia.
    + injection Hj as <-. pose proof (zsum_nth_le f l HF i x Hi). lia.
    + assert (Hij' : i <> j) by (intros ->; apply Hij; reflexivity).
      specialize (IH i j x y Hij' Hi Hj). specialize (Hf a). lia.
Qed.

Lemma nth_error_map_inv {A B} (f : A -> B) (l : list A) i y :
  nth_error (map f l) i = Some y -> exists x, nth_error l i = Some x /\ f x = y.
Proof.
  rewrite nth_error_map. destruct (nth_error l i) as [x |]; cbn [option_map]; intros H.
  - injection H as <-. exists x. split; reflexivity.
  - discriminate H.
Qed.

(** X4.  In such a pool, while one goroutine is between a successful write
    [Lock] or [TryLock] and its [Unlock], no goroutine is between a
    successful [RLock] or [TryRLock] and its [RUnlock], no other goroutine
    is between a successful write acquisition and its [Unlock], and the
    write flag of the word is set. *)
Theorem RWMutex_writer_excludes
  (fuel : nat) (jobs : list (list rwsection)) (sched : list nat)
  (Hn : Z.of_nat (List.length jobs) < 2 ^ 31)
  (i j : nat) (js1 js2 : list rwsection) :
  let final := interleave sched (map (rwjobs fuel) jobs) rwmutexUnlocked in
  nth_error (fst final) i = Some (RWMutex.Unlock ;; rwjobs fuel js1) ->
  nth_error (fst final) j <> Some (RWMutex.RUnlock ;; rwjobs fuel js2)
  /\ (nth_error (fst final) j = Some (RWMutex.Unlock ;; rwjobs fuel js2) -> i = j)
  /\ write_flag (snd final) = true.
Proof.
  cbv zeta. intros Hi.
  destruct (rw_pool_reach fuel jobs sched Hn) as (phs & Hps & Hm & HW & HWH & Hp & _).
  rewrite Hps in *.
  assert (Hwr : forall x : rwphase, 0 <= writing x) by (intros []; cbn; lia).
  assert (Hrd : forall x : rwphase, 0 <= reading x) by (intros []; cbn; lia).
  destruct (nth_error_map_inv _ _ _ _ Hi) as (phi & Hphi & Ei).
  apply rwprog_writing in Ei.
  pose proof (zsum_nth_le writing phs
                (proj2 (Forall_forall _ _) (fun x _ => Hwr x)) i phi Hphi) as Lw.
  assert (W1 : zsum (map writing phs) = 1) by lia.
  split; [| split].
  - intros Hj. destruct (nth_error_map_inv _ _ _ _ Hj) as (phj & Hphj & Ej).
    apply rwprog_reading in Ej.
    pose proof (zsum_nth_le reading phs
                  (proj2 (Forall_forall _ _) (fun x _ => Hrd x)) j phj Hphj) as Lr.
    specialize (HWH W1). lia.
  - intros Hj. destruct (nth_error_map_inv _ _ _ _ Hj) as (phj & Hphj & Ej).
    apply rwprog_writing in Ej.
    destruct (Nat.eq_dec i j) as [E | E]; [exact E | exfalso].
    pose proof (zsum_two_le writing phs Hwr i j phi phj E Hphi Hphj). lia.
  - rewrite Hm, W1.
    rewrite write_flag_odd. rewrite Z.add_comm, Z.odd_add_mul_2. reflexivity.
Qed.

Lemma RWMutex_writer_excludes_witness :
  let final := interleave [0; 1]%nat
                 (map (rwjobs 1) [[UseWLock]; [UseRLock]; [UseTryWLock]])
                 rwmutexUnlocked in
  nth_error (fst final) 1 <> Some (RWMutex.RUnlock ;; rwjobs 1 [])
  /\ (nth_error (fst final) 1 = Some (RWMutex.Unlock ;; rwjobs 1 []) -> 0%nat = 1%nat)
  /\ write_flag (snd final) = true.
Proof.
  cbv zeta.
  apply (RWMutex_writer_excludes 1 [[UseWLock]; [UseRLock]; [UseTryWLock]] [0; 1]%nat
           ltac:(vm_compute; reflexivity) 0 1 [] []).
  reflexivity.
Defined.

(** * The polling loop of [RLock] *)

Lemma run_under_RLock_wait k :
  forall obs last,
    polls (snd (run_under (RWMutex.RLock_wait k) obs last)) = true
    /\ (fst (fst (run_under (RWMutex.RLock_wait k) obs last)) = ret tt ->
        snd (run_under (RWMutex.RLock_wait k) obs last) <> []
        /\ saw_clear (List.last (snd (run_under (RWMutex.RLock_wait k) obs last)) EvGosched)
           = true).
Proof.
  induction k as [| k IH]; intros obs last.
  - cbn [RWMutex.RLock_wait]. unfold spin. rewrite run_under_done. cbn [fst snd].
    split; [reflexivity | discriminate].
  - destruct obs as [| m obs]; [cbn [run_under fst snd]; split; [reflexivity | discriminate] |].
    cbn [run_under RWMutex.RLock_wait]. unfold_calls. rewrite land_write_flag.
    destruct (write_flag m) eqn:Hf; cbn [negb].
    + destruct obs as [| m2 obs].
      * cbn [run_under fst snd polls]. rewrite Hf. split; [reflexivity | discriminate].
      * cbn [run_under step bind]. specialize (IH obs m2).
        destruct (run_under (RWMutex.RLock_wait k) obs m2) as [[p w] t].
        cbn [fst snd polls] in *. rewrite Hf. destruct IH as [IH1 IH2].
        split; [exact IH1 |]. intros Hp. destruct (IH2 Hp) as [Hne Hlast].
        split; [discriminate |].
        destruct t as [| e t]; [contradiction Hne; reflexivity | exact Hlast].
    + rewrite run_under_done. cbn [fst snd polls saw_clear List.last]. rewrite Hf.
      split; [reflexivity |]. intros _. split; [discriminate | reflexivity].
Qed.

(** X5.  [RLock] among other goroutines, whatever they do to the word:
    its first step adds [rwmutexReadOffset], and that is the only time it
    writes; if the word it got back has the write flag clear it has
    returned; otherwise it only loads the word, yielding after every load
    that finds the flag set, and it returns only right after an event that
    saw the flag clear. *)
Theorem RLock_adds_once_then_polls (fuel : nat) (m : Z) (obs : list Z) (last : Z) :
  let r := run_under (RWMutex.RLock fuel) (m :: obs) last in
  let v := Int.uint32 (m + rwmutexReadOffset) in
  exists t : list event,
    snd r = EvAdd rwmutexReadOffset v :: t
    /\ polls t = true
    /\ (write_flag m = false -> fst (fst r) = ret tt /\ t = [])
    /\ (fst (fst r) = ret tt -> saw_clear (List.last (snd r) EvGosched) = true).
Proof.
  cbv zeta. cbn [run_under]. unfold_calls.
  rewrite land_write_flag, write_flag_add_offset.
  destruct (write_flag m) eqn:Hf; cbn [negb].
  - destruct (run_under_RLock_wait fuel obs (Int.uint32 (m + rwmutexReadOffset)))
      as [Hp Hr].
    destruct (run_under (RWMutex.RLock_wait fuel) obs (Int.uint32 (m + rwmutexReadOffset)))
      as [[p w] t]. cbn [fst snd] in *.
    exists t. split; [reflexivity | split; [exact Hp | split; [discriminate |]]].
    intros Hret. destruct (Hr Hret) as [Hne Hlast].
    destruct t as [| e t]; [contradiction Hne; reflexivity | exact Hlast].
  - rewrite run_under_done. cbn [fst snd]. exists [].
    split; [reflexivity | split; [reflexivity | split; [split; reflexivity |]]].
    intros _. cbn [List.last saw_clear]. rewrite write_flag_add_offset, Hf. reflexivity.
Qed.

Lemma RLock_adds_once_then_polls_witness :
  let r := run_under (RWMutex.RLock 3) [1; 3; 3; 2] 1 in
  saw_clear (List.last (snd r) EvGosched) = true
  /\ snd r = [EvAdd rwmutexReadOffset 3; EvLoad 3; EvGosched; EvLoad 2].
Proof.
  cbv zeta.
  destruct (RLock_adds_once_then_polls 3 1 [3; 3; 2] 1) as (t & _ & _ & _ & H).
  split; [apply H; reflexivity | reflexivity].
Defined.

Lemma run_under_RLock_wait_busy k :
  forall busy m rest last,
    (List.length busy < k)%nat ->
    Forall (fun ab => write_flag (fst ab) = true) busy ->
    write_flag m = false ->
    run_under (RWMutex.RLock_wait k) (busy_obs busy ++ m :: rest) last
    = (ret tt, m, busy_polls busy ++ [EvLoad m]).
Proof.
  induction k as [| k IH]; intros busy m rest last Hk Hb Hm; [lia |].
  destruct busy as [| [a b] busy].
  - cbn [busy_obs busy_polls flat_map app run_under RWMutex.RLock_wait]. unfold_calls.
    rewrite land_write_flag, Hm. cbn [negb]. rewrite run_under_done. reflexivity.
  - inversion Hb as [| ? ? Ha Hb']; subst. cbn [fst] in Ha.
    cbn [busy_obs busy_polls flat_map app fst snd run_under RWMutex.RLock_wait].
    unfold_calls. rewrite land_write_flag, Ha. cbn [negb bind step].
    cbn [List.length] in Hk.
    change (flat_map (fun ab : Z * Z => [fst ab; snd ab]) busy) with (busy_obs busy).
    rewrite (IH busy m rest b ltac:(lia) Hb' Hm). reflexivity.
Qed.

(** X6.  A reader that finds a writer: when the word [RLock] gets back from
    its add has the write flag set, it polls; if the next loads find the
    flag set (fewer of them than the loop's budget) and then one finds it
    clear, [RLock] returns right after that load, having yielded after
    every load before it and added its offset only once. *)
Theorem RLock_waits_for_writer
  (fuel : nat) (m0 m : Z) (busy : list (Z * Z)) (rest : list Z) (last : Z)
  (H0 : write_flag m0 = true)
  (Hk : (List.length busy < fuel)%nat)
  (Hb : Forall (fun ab => write_flag (fst ab) = true) busy)
  (Hm : write_flag m = false) :
  run_under (RWMutex.RLock fuel) (m0 :: busy_obs busy ++ m :: rest) last
  = (ret tt, m,
     EvAdd rwmutexReadOffset (Int.uint32 (m0 + rwmutexReadOffset))
       :: busy_polls busy ++ [EvLoad m]).
Proof.
  cbn [run_under]. unfold_calls.
  rewrite land_write_flag, write_flag_add_offset, H0. cbn [negb].
  rewrite (run_under_RLock_wait_busy fuel busy m rest _ Hk Hb Hm). reflexivity.
Qed.

Lemma RLock_waits_for_writer_witness :
  run_under (RWMutex.RLock 3) (1 :: busy_obs [(3, 3); (3, 2)] ++ 2 :: [0]) 0
  = (ret tt, 2,
     EvAdd rwmutexReadOffset (Int.uint32 (1 + rwmutexReadOffset))
       :: busy_polls [(3, 3); (3, 2)] ++ [EvLoad 2]).
Proof.
  apply RLock_waits_for_writer.
  - reflexivity.
  - cbn. lia.
  - repeat constructor.
  - reflexivity.
Defined.

(** * Waiting for a lock that is held *)

Lemma run_Mutex_Lock_held fuel m :
  m <> mutexUnlocked ->
  run (Mutex.Lock fuel) m
  = (Spins, m, failed_attempts mutexUnlocked mutexLocked true fuel).
Proof.
  intros Hm. apply Z.eqb_neq in Hm.
  induction fuel as [| fuel IH]; [reflexivity |].
  cbn [Mutex.Lock]. unfold_calls. rewrite Hm. cbn [negb bind run].
  fold (@spin unit). change (Done Spins) with (@spin unit) in IH.
  unfold spin in *. rewrite IH. reflexivity.
Qed.

Lemma run_RWMutex_Lock_held fuel s :
  s <> rwmutexUnlocked ->
  run (RWMutex.Lock fuel) s
  = (Spins, s, failed_attempts rwmutexUnlocked rwmutexWrite true fuel).
Proof.
  intros Hs. apply Z.eqb_neq in Hs.
  induction fuel as [| fuel IH]; [reflexivity |].
  cbn [RWMutex.Lock]. unfold_calls. rewrite Hs. cbn [negb bind run].
  unfold spin in *. rewrite IH. reflexivity.
Qed.

Lemma run_RLock_wait_held fuel v :
  write_flag v = true ->
  run (RWMutex.RLock_wait fuel) v
  = (Spins, v, busy_polls (repeat (v, v) fuel)).
Proof.
  intros Hv.
  induction fuel as [| fuel IH]; [reflexivity |].
  cbn [RWMutex.RLock_wait]. unfold_calls. rewrite land_write_flag, Hv.
  cbn [negb bind run]. unfold spin in *. rewrite IH. reflexivity.
Qed.

(** X7.  With nobody else touching the word, a [Lock] on a [Mutex] that is
    not unlocked, a write [Lock] on an [RWMutex] that is not unlocked
    (held by a writer or by readers) and an [RLock] on a word with the
    write flag set never return: every attempt fails and is followed by a
    yield, [Lock] leaves the word as it was, and [RLock] leaves its read
    offset added.  In particular a goroutine that calls [Lock] twice in a
    row waits for itself. *)
Theorem Lock_waits_while_held (fuel : nat) (m s w : Z)
  (Hm : m <> mutexUnlocked) (Hs : s <> rwmutexUnlocked) (Hw : write_flag w = true) :
  run (Mutex.Lock fuel) m
  = (Spins, m, failed_attempts mutexUnlocked mutexLocked true fuel)
  /\ run (RWMutex.Lock fuel) s
     = (Spins, s, failed_attempts rwmutexUnlocked rwmutexWrite true fuel)
  /\ run (RWMutex.RLock fuel) w
     = (Spins, Int.uint32 (w + rwmutexReadOffset),
        EvAdd rwmutexReadOffset (Int.uint32 (w + rwmutexReadOffset))
          :: busy_polls (repeat (Int.uint32 (w + rwmutexReadOffset),
                                 Int.uint32 (w + rwmutexReadOffset)) fuel))
  /\ run (Mutex.Lock (S fuel) ;; Mutex.Lock fuel) mutexUnlocked
     = (Spins, mutexLocked,
        EvCas mutexUnlocked mutexLocked true
          :: failed_attempts mutexUnlocked mutexLocked true fuel).
Proof.
  split; [exact (run_Mutex_Lock_held fuel m Hm) |].
  split; [exact (run_RWMutex_Lock_held fuel s Hs) |].
  split.
  - unfold RWMutex.RLock. unfold_calls.
    rewrite land_write_flag, write_flag_add_offset, Hw. cbn [negb].
    rewrite (run_RLock_wait_held fuel _ (eq_trans (write_flag_add_offset w) Hw)).
    reflexivity.
  - rewrite run_bind.
    change (run (Mutex.Lock (S fuel)) mutexUnlocked)
      with (Returns tt, mutexLocked, [EvCas mutexUnlocked mutexLocked true]).
    cbv beta iota zeta.
    rewrite (run_Mutex_Lock_held fuel mutexLocked) by discriminate. reflexivity.
Qed.

Lemma Lock_waits_while_held_witness :
  run (Mutex.Lock 2) mutexLocked
  = (Spins, mutexLocked, failed_attempts mutexUnlocked mutexLocked true 2)
  /\ run (RWMutex.Lock 2) rwmutexReadOffset
     = (Spins, rwmutexReadOffset, failed_attempts rwmutexUnlocked rwmutexWrite true 2).
Proof.
  destruct (Lock_waits_while_held 2 mutexLocked rwmutexReadOffset rwmutexWrite)
    as (H1 & H2 & _).
  - discriminate.
  - discriminate.
  - reflexivity.
  - split; [exact H1 | exact H2].
Defined.

Section CasProgress.

Variables (L : nat -> prog unit) (old new : Z).

Hypothesis L_S : forall fuel m,
    step (L (S fuel)) m
    = Some (if m =? old then (EvCas old new true, ret tt, new)
            else (EvCas old new false, after_failure true (L fuel), m)).

Lemma cas_loop_progress fuel :
  forall busy rest last,
    (List.length busy < fuel)%nat ->
    Forall (fun ab => fst ab <> old) busy ->
    run_under (L fuel) (busy_obs busy ++ old :: rest) last
    = (ret tt, new,
       failed_attempts old new true (List.length busy) ++ [EvCas old new true]).
Proof.
  induction fuel as [| fuel IH]; intros busy rest last Hk Hb; [lia |].
  destruct busy as [| [a b] busy].
  - cbn [busy_obs flat_map app run_under List.length failed_attempts].
    rewrite L_S, Z.eqb_refl. unfold ret. rewrite run_under_done. reflexivity.
  - inversion Hb as [| ? ? Ha Hb']; subst. cbn [fst] in Ha.
    apply Z.eqb_neq in Ha. cbn [List.length] in Hk.
    cbn [busy_obs flat_map app fst snd run_under List.length failed_attempts].
    rewrite L_S, Ha.
    cbn [after_failure runtime.Gosched bind step ret].
    change (flat_map (fun ab : Z * Z => [fst ab; snd ab]) busy) with (busy_obs busy).
    rewrite (IH busy rest b ltac:(lia) Hb'). reflexivity.
Qed.

End CasProgress.

(** X8.  A [Lock] among other goroutines acquires at its first attempt
    that finds the word unlocked: if it finds the lock taken [n] times
    (fewer than its budget) and then finds it free, [Mutex.Lock] and the
    write [RWMutex.Lock] return right after that attempt, having made [n]
    failed attempts each followed by a yield, and leave the word locked
    (for writing). *)
Theorem Lock_acquires_when_found_free
  (fuel : nat) (busy : list (Z * Z)) (rest : list Z) (last : Z)
  (Hk : (List.length busy < fuel)%nat)
  (Hb : Forall (fun ab => fst ab <> 0) busy) :
  run_under (Mutex.Lock fuel) (busy_obs busy ++ mutexUnlocked :: rest) last
  = (ret tt, mutexLocked,
     failed_attempts mutexUnlocked mutexLocked true (List.length busy)
       ++ [EvCas mutexUnlocked mutexLocked true])
  /\ run_under (RWMutex.Lock fuel) (busy_obs busy ++ rwmutexUnlocked :: rest) last
     = (ret tt, rwmutexWrite,
        failed_attempts rwmutexUnlocked rwmutexWrite true (List.length busy)
          ++ [EvCas rwmutexUnlocked rwmutexWrite true]).
Proof.
  split.
  - exact (cas_loop_progress Mutex.Lock mutexUnlocked mutexLocked
             Mutex_Lock_step fuel busy rest last Hk Hb).
  - exact (cas_loop_progress RWMutex.Lock rwmutexUnlocked rwmutexWrite
             RWMutex_Lock_step fuel busy rest last Hk Hb).
Qed.

Lemma Lock_acquires_when_found_free_witness :
  run_under (Mutex.Lock 3) (busy_obs [(1, 1); (1, 0)] ++ mutexUnlocked :: [1]) 1
  = (ret tt, mutexLocked,
     failed_attempts mutexUnlocked mutexLocked true 2
       ++ [EvCas mutexUnlocked mutexLocked true]).
Proof.
  apply (Lock_acquires_when_found_free 3 [(1, 1); (1, 0)] [1] 1).
  - cbn. lia.
  - repeat constructor; discriminate.
Defined.

(** * Read locks at the bounds of the reader count *)

(** X9.  Through the [sync.Locker] of [RLocker], [Lock] then [Unlock] on
    any word with the write flag clear are the two adds of [RLock] and
    [RUnlock] and leave the word as it was.  The pair returns normally,
    except from a reader count of [2^31 - 1]: there the count wraps to
    zero and the [Unlock], although matched, panics. *)
Theorem rlocker_Lock_Unlock (fuel : nat) (s : Z)
  (Hs : Int.is_uint32 s) (Hf : write_flag s = false) :
  run (RWMutex.rlocker.Lock fuel ;; RWMutex.rlocker.Unlock) s
  = (if reader_count s =? 2 ^ 31 - 1 then Panics msg_runlock else Returns tt,
     s,
     [EvAdd rwmutexReadOffset (Int.uint32 (s + rwmutexReadOffset));
      EvAdd rwmutexReaderDecrease s]).
Proof.
  unfold RWMutex.rlocker.Lock, RWMutex.rlocker.Unlock.
  rewrite run_bind, (run_RLock_free fuel s Hf). cbv beta iota zeta.
  rewrite run_RUnlock. cbv zeta.
  rewrite (add_then_decrease s Hs), (underflow_test s Hs).
  unfold reader_count_underflowed. change (Z.ones 31) with (2 ^ 31 - 1).
  destruct (reader_count s =? 2 ^ 31 - 1); reflexivity.
Qed.

Lemma rlocker_Lock_Unlock_witness :
  run (RWMutex.rlocker.Lock 1 ;; RWMutex.rlocker.Unlock) (2 ^ 32 - 2)
  = (Panics msg_runlock, 2 ^ 32 - 2,
     [EvAdd rwmutexReadOffset 0; EvAdd rwmutexReaderDecrease (2 ^ 32 - 2)])
  /\ run (RWMutex.rlocker.Lock 1 ;; RWMutex.rlocker.Unlock) 4
     = (Returns tt, 4, [EvAdd rwmutexReadOffset 6; EvAdd rwmutexReaderDecrease 4]).
Proof.
  split.
  - apply (rlocker_Lock_Unlock 1 (2 ^ 32 - 2)); [unfold Int.is_uint32; lia | reflexivity].
  - apply (rlocker_Lock_Unlock 1 4); [unfold Int.is_uint32; lia | reflexivity].
Defined.

Lemma run_RLocks fuel n :
  forall m,
    Int.is_uint32 m -> write_flag m = false ->
    ok_of (run (calls fuel (repeat CallRLock n)) m) = Returns tt
    /\ word_of (run (calls fuel (repeat CallRLock n)) m)
       = Int.uint32 (m + 2 * Z.of_nat n).
Proof.
  induction n as [| n IH]; intros m Hr Hm.
  - unfold ok_of, word_of. cbn [repeat calls ret run fst snd]. split; [reflexivity |].
    rewrite Z.add_0_r. symmetry. apply uint32_small, Hr.
  - cbn [repeat calls rcall_prog]. rewrite run_bind, (run_RLock_free fuel m Hm).
    cbv beta iota zeta.
    destruct (IH (Int.uint32 (m + rwmutexReadOffset)) (uint32_range _)
                (eq_trans (write_flag_add_offset m) Hm)) as [Hok Hw].
    destruct (run (calls fuel (repeat CallRLock n)) (Int.uint32 (m + rwmutexReadOffset)))
      as [[o w] t].
    unfold ok_of, word_of in *. cbn [fst snd] in *. split; [exact Hok |].
    rewrite Hw. unfold Int.uint32. rewrite Zplus_mod_idemp_l, rwmutexReadOffset_val.
    f_equal. lia.
Qed.

(** X10.  Read locks taken one after the other on an unlocked lock all
    succeed, and the reader count is their number modulo [2^31]: with a
    multiple of [2^31] read locks outstanding the word is zero again, and
    only then does a writer's [TryLock] succeed. *)
Theorem reader_count_wraps (fuel : nat) (n : nat) :
  let r := run (calls fuel (repeat CallRLock n)) rwmutexUnlocked in
  ok_of r = Returns tt
  /\ word_of r = Int.uint32 (2 * Z.of_nat n)
  /\ write_flag (word_of r) = false
  /\ reader_count (word_of r) = Z.of_nat n mod 2 ^ 31
  /\ ok_of (run (calls fuel (repeat CallRLock n) ;; RWMutex.TryLock) rwmutexUnlocked)
     = Returns (Z.of_nat n mod 2 ^ 31 =? 0).
Proof.
  cbv zeta.
  destruct (run_RLocks fuel n rwmutexUnlocked) as [Hok Hw];
    [unfold Int.is_uint32, rwmutexUnlocked; lia | reflexivity |].
  change (rwmutexUnlocked + 2 * Z.of_nat n) with (2 * Z.of_nat n) in Hw.
  assert (Hrc : reader_count (Int.uint32 (2 * Z.of_nat n)) = Z.of_nat n mod 2 ^ 31).
  { rewrite reader_count_div. unfold Int.uint32.
    change (2 ^ 32) with 4294967296. change (2 ^ 31) with 2147483648.
    Z.div_mod_to_equations; lia. }
  split; [exact Hok | split; [exact Hw | split; [| split]]].
  - rewrite Hw. apply write_flag_even.
  - rewrite Hw. exact Hrc.
  - rewrite run_bind.
    destruct (run (calls fuel (repeat CallRLock n)) rwmutexUnlocked) as [[o w] t].
    unfold ok_of, word_of in *. cbn [fst snd] in *. subst o w.
    rewrite run_TryLock. cbn [fst]. f_equal.
    rewrite unlocked_iff, Hrc, write_flag_even. apply andb_true_r.
Qed.

(** * One goroutine, section after section *)

Lemma run_rwsection fuel s :
  exists t,
    run (rwsection_prog (S fuel) s) rwmutexUnlocked = (Returns tt, rwmutexUnlocked, t)
    /\ List.length t = 2%nat.
Proof.
  destruct s; eexists; split; reflexivity.
Qed.

(** X11.  One goroutine going through any number of read and write
    sections on an unlocked [RWMutex], with nobody else around: every
    acquisition succeeds at its first step, every unlock returns, each
    section is exactly two atomic steps, and the lock is unlocked again at
    the end. *)
Theorem RWMutex_sections_in_sequence (fuel : nat) (js : list rwsection) :
  let r := run (rwjobs (S fuel) js) rwmutexUnlocked in
  ok_of r = Returns tt
  /\ word_of r = rwmutexUnlocked
  /\ List.length (trace_of r) = (2 * List.length js)%nat.
Proof.
  cbv zeta. induction js as [| s js IH]; [repeat split; reflexivity |].
  cbn [rwjobs]. rewrite run_bind.
  destruct (run_rwsection fuel s) as (t & -> & Ht). cbv beta iota zeta.
  destruct (run (rwjobs (S fuel) js) rwmutexUnlocked) as [[o w] t'].
  unfold ok_of, word_of, trace_of in *. cbn [fst snd] in *.
  destruct IH as (Ho & Hw & Hl).
  repeat split; [exact Ho | exact Hw |].
  rewrite length_app, Ht, Hl. cbn [List.length]. lia.
Qed.

(** * The struct-based [Mutex], call by call *)

(** X12.  On every [int32] word, [Mutex.TryLock] is one compare-and-swap:
    it returns true exactly when the word was unlocked, leaving it locked,
    and otherwise leaves the word as it was.  [Mutex.Unlock] (lines 43-48)
    is one add of [-mutexLocked] modulo [2^32]: it returns normally exactly
    when the word was locked, leaving it unlocked, and panics from every
    other word, leaving it decremented (from the least [int32] the
    decrement wraps to the greatest). *)
Theorem Mutex_TryLock_Unlock_each_word (s : Z) (Hs : Int.is_int32 s) :
  run Mutex.TryLock s
  = (Returns (s =? mutexUnlocked),
     (if s =? mutexUnlocked then mutexLocked else s),
     [EvCas mutexUnlocked mutexLocked (s =? mutexUnlocked)])
  /\ run Mutex.Unlock s
     = (if s =? mutexLocked then Returns tt else Panics msg_mutex,
        Int.int32 (s - mutexLocked),
        [EvAdd (- mutexLocked) (Int.int32 (s - mutexLocked))])
  /\ Int.int32 (s - mutexLocked) = (if s =? - 2 ^ 31 then 2 ^ 31 - 1 else s - 1).
Proof.
  split; [| split].
  - unfold_calls. destruct (s =? mutexUnlocked); reflexivity.
  - exact (Mutex_Unlock_held s Hs).
  - unfold Int.int32, Int.is_int32, mutexLocked in *.
    change (2 ^ 32) with 4294967296. change (2 ^ 31) with 2147483648 in *.
    destruct (Z.eqb_spec s (Z.opp 2147483648)) as [-> | E]; [reflexivity |].
    Z.div_mod_to_equations; lia.
Qed.

Lemma Mutex_TryLock_Unlock_each_word_witness :
  run Mutex.TryLock mutexLocked
  = (Returns false, mutexLocked, [EvCas mutexUnlocked mutexLocked false])
  /\ run Mutex.Unlock (- 2 ^ 31)
     = (Panics msg_mutex, 2 ^ 31 - 1, [EvAdd (- mutexLocked) (2 ^ 31 - 1)]).
Proof.
  split.
  - apply (Mutex_TryLock_Unlock_each_word mutexLocked).
    unfold Int.is_int32, mutexLocked. lia.
  - apply (Mutex_TryLock_Unlock_each_word (- 2 ^ 31)).
    unfold Int.is_int32. lia.
Defined.
